(** * The compilation graph of the bundler: modules, chunks and chunk groups

    A shallow embedding of [lib/Module.js] and [lib/Chunk.js].  The JavaScript
    objects live in a store addressed by handles; every method that mutates
    an object becomes a function from store to store, and every method that
    only reads becomes a function of the store. *)

From Stdlib Require Import ZArith String Ascii Lia.
From stdpp Require Import base option list gmap strings.

Local Open Scope Z_scope.
Local Open Scope nat_scope.

(** ** JavaScript values that cross the interfaces modelled here *)

(** How a call ends: with a value, or with a thrown [Error] and its message. *)
Inductive Completion (A : Type) : Type :=
| Normal (value : A)
| Throws (message : string).
Arguments Normal {A} value.
Arguments Throws {A} message.

(** The values a property read can give in what follows. *)
Inductive JSValue : Type :=
| JSUndefined
| JSNumber (n : Z)
| JSFunction (name : string).

(** ** Sets in insertion order

    [Set] (and [SortableSet], which extends it) iterates in insertion order
    and holds an element once.  A set is the list of its elements in that
    order. *)

Definition set_has (x : nat) (s : list nat) : bool := bool_decide (x ∈ s).

Definition set_add (x : nat) (s : list nat) : list nat :=
  if set_has x s then s else s ++ [x].

Definition set_delete (x : nat) (s : list nat) : list nat :=
  filter (λ y, y ≠ x) s.

(** [for (const x of xs) s.add(x)] *)
Definition set_add_all (xs : list nat) (s : list nat) : list nat :=
  foldl (λ acc x, set_add x acc) s xs.

(** [new Set(iterable)] *)
Definition set_of (xs : list nat) : list nat := set_add_all xs [].

(** ** The objects *)

(** [this.used]: [null] or a boolean. *)
Inductive Used : Type :=
| UsedNull
| UsedBool (b : bool).

(** [this.usedExports]: [null], a boolean, or an array of export names. *)
Inductive UsedExports : Type :=
| ExportsNull
| ExportsBool (b : bool)
| ExportsArray (names : list string).

(** [buildMeta], as far as [Module.js] reads it.  [providedExports] is [Some]
    exactly when [Array.isArray] holds of the field. *)
Record BuildMeta : Type := mkBuildMeta {
  exportsType : option string;
  providedExports : option (list string)
}.

(** A module.  [size] is what the subclass's [size()] reports. *)
Record ModuleObj : Type := mkModule {
  _chunks : list nat;
  size : Z;
  used : Used;
  usedExports : UsedExports;
  buildMeta : option BuildMeta
}.

(** A chunk.  [name] is [None] for [undefined]; [entryModule] is [None] for
    [undefined]. *)
Record ChunkObj : Type := mkChunk {
  name : option string;
  entryModule : option nat;
  _modules : list nat;
  _groups : list nat
}.

(** Modelled from the spec: the chunk group, whose class [lib/ChunkGroup.js]
    is not among the sources.  Section 3 gives it a set of member chunks, a
    set of parent groups and an "initial" flag; section 6 lists the
    operations the chunk algorithms consume. *)
Record ChunkGroupObj : Type := mkChunkGroup {
  chunks : list nat;
  parentsIterable : list nat;
  initial : bool
}.

(** The store.  A handle that a store does not bind stands for an object as
    its constructor leaves it. *)
Record Graph : Type := mkGraph {
  moduleStore : gmap nat ModuleObj;
  chunkStore : gmap nat ChunkObj;
  groupStore : gmap nat ChunkGroupObj
}.

Definition newModule : ModuleObj :=
  {| _chunks := []; size := 0; used := UsedNull; usedExports := ExportsNull;
     buildMeta := None |}.

Definition newChunk : ChunkObj :=
  {| name := None; entryModule := None; _modules := []; _groups := [] |}.

Definition newChunkGroup : ChunkGroupObj :=
  {| chunks := []; parentsIterable := []; initial := false |}.

Definition getModule (st : Graph) (m : nat) : ModuleObj :=
  default newModule (moduleStore st !! m).

Definition getChunk (st : Graph) (c : nat) : ChunkObj :=
  default newChunk (chunkStore st !! c).

Definition getChunkGroup (st : Graph) (g : nat) : ChunkGroupObj :=
  default newChunkGroup (groupStore st !! g).

Definition setModule (st : Graph) (m : nat) (o : ModuleObj) : Graph :=
  {| moduleStore := <[m := o]> (moduleStore st);
     chunkStore := chunkStore st;
     groupStore := groupStore st |}.

Definition setChunk (st : Graph) (c : nat) (o : ChunkObj) : Graph :=
  {| moduleStore := moduleStore st;
     chunkStore := <[c := o]> (chunkStore st);
     groupStore := groupStore st |}.

Definition setChunkGroup (st : Graph) (g : nat) (o : ChunkGroupObj) : Graph :=
  {| moduleStore := moduleStore st;
     chunkStore := chunkStore st;
     groupStore := <[g := o]> (groupStore st) |}.

(** Field updates. *)
Definition with_chunks (o : ModuleObj) (s : list nat) : ModuleObj :=
  {| _chunks := s; size := size o; used := used o;
     usedExports := usedExports o; buildMeta := buildMeta o |}.

Definition with_modules (o : ChunkObj) (s : list nat) : ChunkObj :=
  {| name := name o; entryModule := entryModule o; _modules := s;
     _groups := _groups o |}.

Definition with_groups (o : ChunkObj) (s : list nat) : ChunkObj :=
  {| name := name o; entryModule := entryModule o; _modules := _modules o;
     _groups := s |}.

Definition with_name (o : ChunkObj) (n : option string) : ChunkObj :=
  {| name := n; entryModule := entryModule o; _modules := _modules o;
     _groups := _groups o |}.

Definition with_group_chunks (o : ChunkGroupObj) (s : list nat) : ChunkGroupObj :=
  {| chunks := s; parentsIterable := parentsIterable o; initial := initial o |}.

(** ** Iterating a set that grows

    [for (const x of queue) { ... queue.add(y) ... }] visits the elements in
    insertion order, those added during the loop included, each once.  The
    body either returns from the enclosing function or goes on to the next
    element after adding some elements to the queue. *)

Inductive Step : Type :=
| Next (enqueue : list nat)
| Return (result : bool).

(** [None]: out of fuel.  [Some None]: the loop ran to its end.
    [Some (Some b)]: the body returned [b]. *)
Fixpoint for_of_queue (body : nat → Step) (fuel : nat) (queue : list nat)
    (i : nat) : option (option bool) :=
  match fuel with
  | O => None
  | S fuel' =>
      match queue !! i with
      | None => Some None
      | Some x =>
          match body x with
          | Return b => Some (Some b)
          | Next ys => for_of_queue body fuel' (set_add_all ys queue) (S i)
          end
      end
  end.

(** Every parent link of the store, the store's groups in key order. *)
Definition all_parents (st : Graph) : list nat :=
  map_to_list (groupStore st) ≫= (λ kv, parentsIterable kv.2).

(** Fuel that is enough for a traversal that starts from [queue] and only
    ever enqueues parents of groups (see [for_of_queue_terminates]). *)
Definition traversal_fuel (st : Graph) (queue : list nat) : nat :=
  S (length queue + length (all_parents st)).

(** [for (const x of xs) st = body(st, x)] where the body may fail. *)
Fixpoint for_each {A S : Type} (body : S → A → option S) (st : S)
    (xs : list A) : option S :=
  match xs with
  | [] => Some st
  | x :: xs' => st' ← body st x; for_each body st' xs'
  end.

(** ** Chunk groups *)

(** Modelled from the spec: [ChunkGroup.isInitial()] ([lib/ChunkGroup.js] is
    not among the sources) reads the group's "initial" flag. *)
Definition ChunkGroup_isInitial (st : Graph) (g : nat) : bool :=
  initial (getChunkGroup st g).

(** Modelled from the spec: [ChunkGroup.removeChunk(chunk)] takes the chunk
    out of the group's member chunks; nothing else changes. *)
Definition ChunkGroup_removeChunk (st : Graph) (g : nat) (chunk : nat) : Graph :=
  let o := getChunkGroup st g in
  if set_has chunk (chunks o)
  then setChunkGroup st g (with_group_chunks o (set_delete chunk (chunks o)))
  else st.

(** Modelled from the spec: [ChunkGroup.replaceChunk(oldChunk, newChunk)]
    repoints the group from [oldChunk] to [newChunk] in place; the group
    holds each member chunk once.  A group that does not hold [oldChunk]
    stays as it is. *)
Definition ChunkGroup_replaceChunk (st : Graph) (g : nat)
    (oldChunk newChunk : nat) : Graph :=
  let o := getChunkGroup st g in
  if set_has oldChunk (chunks o)
  then setChunkGroup st g
         (with_group_chunks o
            (set_of (map (λ c, if bool_decide (c = oldChunk) then newChunk else c)
                         (chunks o))))
  else st.

(** ** Module.js *)

(** [addChunk(chunk)] *)
Definition Module_addChunk (st : Graph) (this chunk : nat) : Graph * bool :=
  let o := getModule st this in
  if set_has chunk (_chunks o) then (st, false)
  else (setModule st this (with_chunks o (set_add chunk (_chunks o))), true).

(** [isInChunk(chunk)] *)
Definition Module_isInChunk (st : Graph) (this chunk : nat) : bool :=
  set_has chunk (_chunks (getModule st this)).

(** [Chunk.containsModule(module)] *)
Definition Chunk_containsModule (st : Graph) (this module : nat) : bool :=
  set_has module (_modules (getChunk st this)).

(** [Chunk.removeModule(module)] and [Module.removeChunk(chunk)] call each
    other; [depth] bounds the nesting of the calls. *)
Fixpoint Chunk_removeModule_rec (depth : nat) (st : Graph) (this module : nat)
    : option (Graph * bool) :=
  match depth with
  | O => None
  | S depth' =>
      let o := getChunk st this in
      if set_has module (_modules o) then
        let st1 := setChunk st this (with_modules o (set_delete module (_modules o))) in
        '(st2, _) ← Module_removeChunk_rec depth' st1 module this;
        Some (st2, true)
      else Some (st, false)
  end
with Module_removeChunk_rec (depth : nat) (st : Graph) (this chunk : nat)
    : option (Graph * bool) :=
  match depth with
  | O => None
  | S depth' =>
      let o := getModule st this in
      if set_has chunk (_chunks o) then
        let st1 := setModule st this (with_chunks o (set_delete chunk (_chunks o))) in
        '(st2, _) ← Chunk_removeModule_rec depth' st1 chunk this;
        Some (st2, true)
      else Some (st, false)
  end.

(** Three nested calls are the most there can be: the third finds the element
    already deleted (see [Chunk_removeModule_depth]). *)
Definition Chunk_removeModule (st : Graph) (this module : nat)
    : option (Graph * bool) :=
  Chunk_removeModule_rec 3 st this module.

Definition Module_removeChunk (st : Graph) (this chunk : nat)
    : option (Graph * bool) :=
  Module_removeChunk_rec 3 st this chunk.

(** [isAccessibleInChunkGroup(chunkGroup, ignoreChunk)]; [ignoreChunk] is
    [None] when the argument is left out. *)
Definition isAccessibleInChunkGroup_body (st : Graph) (this chunkGroup : nat)
    (ignoreChunk : option nat) (cg : nat) : Step :=
  if existsb (λ chunk, negb (bool_decide (Some chunk = ignoreChunk))
                       && Chunk_containsModule st chunk this)
             (chunks (getChunkGroup st cg))
  then Next []
  else if ChunkGroup_isInitial st chunkGroup then Return false
  else Next (parentsIterable (getChunkGroup st chunkGroup)).

Definition Module_isAccessibleInChunkGroup (st : Graph) (this chunkGroup : nat)
    (ignoreChunk : option nat) : option bool :=
  let queue := set_of [chunkGroup] in
  r ← for_of_queue (isAccessibleInChunkGroup_body st this chunkGroup ignoreChunk)
        (traversal_fuel st queue) queue 0;
  Some (default true r).

(** [isAccessibleInChunk(chunk, ignoreChunk)]: the call it makes for each
    group passes no [ignoreChunk]. *)
Definition Module_isAccessibleInChunk (st : Graph) (this chunk : nat)
    (ignoreChunk : option nat) : option bool :=
  for_each (λ acc chunkGroup,
              if acc : bool then Module_isAccessibleInChunkGroup st this chunkGroup None
              else Some false)
           true (_groups (getChunk st chunk)).

(** What [isUsed] returns: a boolean, the export name, or the result of
    [Template.numberToIdentifer(idx)].  [lib/Template.js] is not among the
    sources, so that call is kept as it is written, with its argument. *)
Inductive UsedResult : Type :=
| ResultBool (b : bool)
| ResultName (exportName : string)
| ResultIdentifier (idx : Z).

(** [array.indexOf(x)]: the first position of [x], or [-1]. *)
Fixpoint indexOf (x : string) (l : list string) : Z :=
  match l with
  | [] => (-1)%Z
  | y :: l' =>
      if String.eqb y x then 0%Z
      else let i := indexOf x l' in if (i <? 0)%Z then (-1)%Z else (i + 1)%Z
  end.

(** [array.includes(x)] *)
Definition includes (x : string) (l : list string) : bool :=
  existsb (String.eqb x) l.

(** [isProvided(exportName)]: [null] ([None]) when [providedExports] is not
    an array.  Reading a field of an undefined [buildMeta] throws. *)
Definition Module_isProvided (this : ModuleObj) (exportName : string)
    : Completion (option bool) :=
  match buildMeta this with
  | None => Throws "TypeError: Cannot read property 'providedExports' of undefined"
  | Some meta =>
      match providedExports meta with
      | None => Normal None
      | Some provided => Normal (Some (includes exportName provided))
      end
  end.

(** [isUsed(exportName)]; [exportName] is [None] when the argument is left
    out, and the empty string is falsy as well. *)
Definition Module_isUsed (this : ModuleObj) (exportName : option string)
    : Completion UsedResult :=
  match exportName with
  | None | Some EmptyString =>
      Normal (ResultBool (match used this with UsedBool false => false | _ => true end))
  | Some exportName =>
      match used this, usedExports this with
      | UsedNull, _ | _, ExportsNull => Normal (ResultName exportName)
      | UsedBool false, _ => Normal (ResultBool false)
      | UsedBool true, ExportsBool false => Normal (ResultBool false)
      | UsedBool true, ExportsBool true => Normal (ResultName exportName)
      | UsedBool true, ExportsArray names =>
          let idx := indexOf exportName names in
          if (idx <? 0)%Z then Normal (ResultBool false)
          else
            match Module_isProvided this exportName with
            | Throws e => Throws e
            | Normal (Some true) =>
                let type := mbind exportsType (buildMeta this) in
                if bool_decide (type = Some "namespace"%string)
                then Normal (ResultIdentifier idx)
                else if bool_decide (type = Some "named"%string)
                        && negb (includes "default" names)
                then Normal (ResultIdentifier idx)
                else Normal (ResultName exportName)
            | Normal _ => Normal (ResultName exportName)
            end
      end
  end.

(** ** Chunk.js *)

(** Modelled from the spec: the properties of a [SortableSet]
    ([lib/util/SortableSet.js] is not among the sources): a set with its
    [size], the set operations, and the sort and cache operations of section
    4.1.  Any other key reads as [undefined]. *)
Definition SortableSet_property (s : list nat) (key : string) : JSValue :=
  if String.eqb key "size" then JSNumber (Z.of_nat (length s))
  else if bool_decide (key ∈ ["has"; "add"; "delete"; "clear"; "forEach";
                               "sort"; "sortWith"; "getFromCache";
                               "getFromUnorderedCache"]%string)
  then JSFunction key
  else JSUndefined.

(** [isInitial()]: the loop returns in its first iteration. *)
Definition Chunk_isInitial (st : Graph) (this : nat) : bool :=
  match _groups (getChunk st this) with
  | [] => false
  | chunkGroup :: _ => ChunkGroup_isInitial st chunkGroup
  end.

(** [hasEntryModule()] *)
Definition Chunk_hasEntryModule (st : Graph) (this : nat) : bool :=
  bool_decide (is_Some (entryModule (getChunk st this))).

(** [addModule(module)] *)
Definition Chunk_addModule (st : Graph) (this module : nat) : Graph * bool :=
  let o := getChunk st this in
  if negb (set_has module (_modules o))
  then (setChunk st this (with_modules o (set_add module (_modules o))), true)
  else (st, false).

(** [getNumberOfModules()] *)
Definition Chunk_getNumberOfModules (st : Graph) (this : nat) : JSValue :=
  SortableSet_property (_modules (getChunk st this)) "size".

(** [addGroup(chunkGroup)] *)
Definition Chunk_addGroup (st : Graph) (this chunkGroup : nat) : Graph * bool :=
  let o := getChunk st this in
  if set_has chunkGroup (_groups o) then (st, false)
  else (setChunk st this (with_groups o (set_add chunkGroup (_groups o))), true).

(** [removeGroup(chunkGroup)] *)
Definition Chunk_removeGroup (st : Graph) (this chunkGroup : nat) : Graph * bool :=
  let o := getChunk st this in
  if negb (set_has chunkGroup (_groups o)) then (st, false)
  else (setChunk st this (with_groups o (set_delete chunkGroup (_groups o))), true).

(** [isInGroup(chunkGroup)] *)
Definition Chunk_isInGroup (st : Graph) (this chunkGroup : nat) : bool :=
  set_has chunkGroup (_groups (getChunk st this)).

(** [getNumberOfGroups()]: reads the key [siz]. *)
Definition Chunk_getNumberOfGroups (st : Graph) (this : nat) : JSValue :=
  SortableSet_property (_groups (getChunk st this)) "siz".

(** [isEmpty()] *)
Definition Chunk_isEmpty (st : Graph) (this : nat) : bool :=
  bool_decide (length (_modules (getChunk st this)) = 0).

(** [remove(reason)]: the first loop runs over a copy of the module set; the
    second runs over the group set, which its body leaves alone. *)
Definition Chunk_remove (st : Graph) (this : nat) : option Graph :=
  st1 ← for_each (λ st module,
                    '(st', _) ← Module_removeChunk st module this; Some st')
                 st (_modules (getChunk st this));
  Some (foldl (λ st chunkGroup, ChunkGroup_removeChunk st chunkGroup this)
              st1 (_groups (getChunk st1 this))).

(** Modelled from the spec: [GraphHelpers.connectChunkAndModule]
    ([lib/GraphHelpers.js] is not among the sources).  Section 4.5: the
    helpers establish and remove a module-chunk edge and never update one
    side without the other. *)
Definition GraphHelpers_connectChunkAndModule (st : Graph) (chunk module : nat)
    : Graph :=
  let st1 := (Module_addChunk st module chunk).1 in
  (Chunk_addModule st1 chunk module).1.

(** Modelled from the spec: [GraphHelpers.disconnectChunkAndModule] removes
    the edge on the side of the chunk and on the side of the module. *)
Definition GraphHelpers_disconnectChunkAndModule (st : Graph)
    (chunk module : nat) : option Graph :=
  '(st1, _) ← Chunk_removeModule st chunk module;
  '(st2, _) ← Module_removeChunk st1 module chunk;
  Some st2.

(** [moveModule(module, otherChunk)] *)
Definition Chunk_moveModule (st : Graph) (this module otherChunk : nat)
    : option Graph :=
  st1 ← GraphHelpers_disconnectChunkAndModule st this module;
  Some (GraphHelpers_connectChunkAndModule st1 otherChunk module).

(** The local function [isAvailable(a, b)] of [canBeIntegrated]. *)
Definition isAvailable_body (st : Graph) (a : nat) (chunkGroup : nat) : Step :=
  if Chunk_isInGroup st a chunkGroup then Next []
  else if ChunkGroup_isInitial st chunkGroup then Return false
  else Next (parentsIterable (getChunkGroup st chunkGroup)).

Definition isAvailable (st : Graph) (a b : nat) : option bool :=
  let queue := set_of (_groups (getChunk st b)) in
  r ← for_of_queue (isAvailable_body st a) (traversal_fuel st queue) queue 0;
  Some (default true r).

(** [canBeIntegrated(otherChunk)] *)
Definition Chunk_canBeIntegrated (st : Graph) (this otherChunk : nat)
    : option bool :=
  if negb (Bool.eqb (Chunk_isInitial st this) (Chunk_isInitial st otherChunk)) then
    if Chunk_isInitial st this then isAvailable st this otherChunk
    else if Chunk_isInitial st otherChunk then isAvailable st otherChunk this
    else Some false
  else if Chunk_hasEntryModule st this || Chunk_hasEntryModule st otherChunk
  then Some false
  else Some true.

(** A string is truthy when it is not empty. *)
Definition truthy (s : option string) : bool :=
  match s with
  | Some (String _ _) => true
  | _ => false
  end.

(** The name that [integrate] leaves on [this]; names are strings of one-byte
    characters, compared as JavaScript compares them. *)
Definition integrated_name (thisName otherName : option string) : option string :=
  match thisName, otherName with
  | Some n1, Some n2 =>
      if truthy thisName && truthy otherName then
        if negb (String.length n1 =? String.length n2)
        then (if String.length n1 <? String.length n2 then Some n1 else Some n2)
        else (if String.ltb n1 n2 then Some n1 else Some n2)
      else thisName
  | _, _ => thisName
  end.

(** One iteration of the group loop of [integrate]:
    [chunkGroup.replaceChunk(otherChunk, this); this.addGroup(chunkGroup)]. *)
Definition integrate_group_step (this otherChunk : nat) (st : Graph)
    (chunkGroup : nat) : Graph :=
  (Chunk_addGroup (ChunkGroup_replaceChunk st chunkGroup otherChunk this)
                  this chunkGroup).1.

(** [integrate(otherChunk, reason)].  The module loop runs over a copy of
    [otherChunk._modules]; the group loop runs over [otherChunk._groups],
    which its body does not change (when [this] is [otherChunk], [addGroup]
    finds the group present). *)
Definition Chunk_integrate (st : Graph) (this otherChunk : nat)
    : option (Graph * bool) :=
  feasible ← Chunk_canBeIntegrated st this otherChunk;
  if negb feasible then Some (st, false)
  else
    st1 ← for_each (λ st module, Chunk_moveModule st otherChunk module this)
                   st (_modules (getChunk st otherChunk));
    let st2 := setChunk st1 otherChunk (with_modules (getChunk st1 otherChunk) []) in
    let st3 := foldl (integrate_group_step this otherChunk)
                     st2 (_groups (getChunk st2 otherChunk)) in
    let st4 := setChunk st3 otherChunk (with_groups (getChunk st3 otherChunk) []) in
    let st5 := setChunk st4 this
                 (with_name (getChunk st4 this)
                    (integrated_name (name (getChunk st4 this))
                                     (name (getChunk st4 otherChunk)))) in
    Some (st5, true).

(** The [options] argument of the size functions.  [chunkOverhead] is [Some]
    exactly when [typeof options.chunkOverhead === "number"];
    [entryChunkMultiplicator] is [None] when the field is not set.  Sizes,
    overheads and multipliers are integers. *)
Record Options : Type := mkOptions {
  chunkOverhead : option Z;
  entryChunkMultiplicator : option Z
}.

(** The constant [overhead] of [addMultiplierAndOverhead]. *)
Definition overhead (options : Options) : Z :=
  match chunkOverhead options with
  | Some n => n
  | None => 10000%Z
  end.

(** The constant [multiplicator] of [addMultiplierAndOverhead]; [x || 10]
    is [10] for a field that is not set and for [0]. *)
Definition multiplicator (st : Graph) (this : nat) (options : Options) : Z :=
  if Chunk_isInitial st this then
    match entryChunkMultiplicator options with
    | None | Some 0%Z => 10%Z
    | Some k => k
    end
  else 1%Z.

(** [addMultiplierAndOverhead(size, options)] *)
Definition Chunk_addMultiplierAndOverhead (st : Graph) (this : nat) (size : Z)
    (options : Options) : Z :=
  (size * multiplicator st this options + overhead options)%Z.

(** [getModulesSize(set)] *)
Definition getModulesSize (st : Graph) (set : list nat) : Z :=
  foldl (λ count module, (count + size (getModule st module))%Z) 0%Z set.

(** [modulesSize()]: the cached value is the one [getModulesSize] computes
    (section 4.1: a cache is never stale). *)
Definition Chunk_modulesSize (st : Graph) (this : nat) : Z :=
  getModulesSize st (_modules (getChunk st this)).

(** [size(options)] *)
Definition Chunk_size (st : Graph) (this : nat) (options : Options) : Z :=
  Chunk_addMultiplierAndOverhead st this (Chunk_modulesSize st this) options.

(** What [integratedSize] returns: [false] or a number. *)
Inductive SizeResult : Type :=
| SizeFalse
| SizeNumber (n : Z).

(** [integratedSize(otherChunk, options)] *)
Definition Chunk_integratedSize (st : Graph) (this otherChunk : nat)
    (options : Options) : option SizeResult :=
  feasible ← Chunk_canBeIntegrated st this otherChunk;
  if negb feasible then Some SizeFalse
  else
    let integratedModulesSize :=
      foldl (λ acc otherModule,
               if negb (set_has otherModule (_modules (getChunk st this)))
               then (acc + size (getModule st otherModule))%Z
               else acc)
            (Chunk_modulesSize st this)
            (_modules (getChunk st otherChunk)) in
    Some (SizeNumber
            (Chunk_addMultiplierAndOverhead st this integratedModulesSize options)).

(** ** Removed accessors

    The getters and setters that only throw. *)
Inductive Accessor : Type :=
| Module_entry | Module_arguments
| Chunk_entry | Chunk_initial
| Chunk_chunks | Chunk_parents | Chunk_blocks | Chunk_entrypoints.

(** Reading the accessor of the object [this]. *)
Definition accessor_get (st : Graph) (this : nat) (a : Accessor)
    : Completion JSValue :=
  match a with
  | Module_entry => Throws "Module.entry was removed. Use Chunk.entryModule"
  | Module_arguments => Throws "Module.arguments was removed, there is no replacement."
  | Chunk_entry => Throws "Chunk.entry was removed. Use hasRuntime()"
  | Chunk_initial => Throws "Chunk.initial was removed. Use isInitial()"
  | Chunk_chunks => Throws "Chunk.chunks: Use ChunkGroup.getChildren() instead"
  | Chunk_parents => Throws "Chunk.parents: Use ChunkGroup.getParents() instead"
  | Chunk_blocks => Throws "Chunk.blocks: Use ChunkGroup.getBlocks() instead"
  | Chunk_entrypoints =>
      Throws "Chunk.entrypoints: Use Chunks.groupsIterable and filter by instanceof Entrypoint instead"
  end.

(** Writing [value] to the accessor of the object [this]; a setter that
    returned would give back the store. *)
Definition accessor_set (st : Graph) (this : nat) (a : Accessor)
    (value : JSValue) : Completion Graph :=
  match a with
  | Module_entry => Throws "Module.entry was removed. Use Chunk.entryModule"
  | Module_arguments => Throws "Module.arguments was removed, there is no replacement."
  | Chunk_entry => Throws "Chunk.entry was removed. Use hasRuntime()"
  | Chunk_initial => Throws "Chunk.initial was removed. Use isInitial()"
  | Chunk_chunks => Throws "Chunk.chunks: Use ChunkGroup.add/removeChild() instead"
  | Chunk_parents => Throws "Chunk.parents: Use ChunkGroup.add/removeParent() instead"
  | Chunk_blocks => Throws "Chunk.blocks: Use ChunkGroup.add/removeBlock() instead"
  | Chunk_entrypoints => Throws "Chunk.entrypoints: Use Chunks.addGroup instead"
  end.

(** The traversal of [isAccessibleInChunkGroup] as section 4.2 of the spec
    words it: a visited group with no satisfying chunk fails the check if it
    is itself initial, and otherwise its own parents are enqueued. *)
Definition isAccessibleInChunkGroup_spec_body (st : Graph) (this : nat)
    (ignoreChunk : option nat) (cg : nat) : Step :=
  if existsb (λ chunk, negb (bool_decide (Some chunk = ignoreChunk))
                       && Chunk_containsModule st chunk this)
             (chunks (getChunkGroup st cg))
  then Next []
  else if ChunkGroup_isInitial st cg then Return false
  else Next (parentsIterable (getChunkGroup st cg)).

Definition isAccessibleInChunkGroup_spec (st : Graph) (this chunkGroup : nat)
    (ignoreChunk : option nat) : option bool :=
  let queue := set_of [chunkGroup] in
  r ← for_of_queue (isAccessibleInChunkGroup_spec_body st this ignoreChunk)
        (traversal_fuel st queue) queue 0;
  Some (default true r).


(** [sub] occurs in [s]. *)
Definition mentions (sub s : string) : bool :=
  bool_decide (is_Some (String.index 0 sub s)).

(** The operation that the message of a getter, and of a setter, tells the
    caller to use; [None] where the message names none. *)
Definition named_on_read (a : Accessor) : option string :=
  match a with
  | Module_entry => Some "Chunk.entryModule"
  | Module_arguments => None
  | Chunk_entry => Some "hasRuntime()"
  | Chunk_initial => Some "isInitial()"
  | Chunk_chunks => Some "ChunkGroup.getChildren()"
  | Chunk_parents => Some "ChunkGroup.getParents()"
  | Chunk_blocks => Some "ChunkGroup.getBlocks()"
  | Chunk_entrypoints => Some "Chunks.groupsIterable"
  end%string.

Definition named_on_write (a : Accessor) : option string :=
  match a with
  | Module_entry => Some "Chunk.entryModule"
  | Module_arguments => None
  | Chunk_entry => Some "hasRuntime()"
  | Chunk_initial => Some "isInitial()"
  | Chunk_chunks => Some "ChunkGroup.add/removeChild()"
  | Chunk_parents => Some "ChunkGroup.add/removeParent()"
  | Chunk_blocks => Some "ChunkGroup.add/removeBlock()"
  | Chunk_entrypoints => Some "Chunks.addGroup"
  end%string.

(** ** Inclusion reasons

    [this.reasons] is an array of [ModuleReason]; the functions below take
    the array and give back the array they leave. *)

(** Modelled from the spec: [ModuleReason] ([lib/ModuleReason.js] is not
    among the sources), the tuple of section 3: the originating module
    ([None] for [null]), the dependency and an explanation.  [Module.js]
    reads the fields [module] and [dependency]. *)
Record ModuleReason : Type := mkModuleReason {
  module : option nat;
  dependency : option nat;
  explanation : string
}.

(** [addReason(module, dependency, explanation)] *)
Definition Module_addReason (reasons : list ModuleReason)
    (module dependency : option nat) (explanation : string) : list ModuleReason :=
  reasons ++ [mkModuleReason module dependency explanation].

(** [removeReason(module, dependency)]: the loop splices the first reason
    that matches and returns. *)
Fixpoint Module_removeReason (reasons : list ModuleReason)
    (module0 dependency0 : option nat) : list ModuleReason * bool :=
  match reasons with
  | [] => ([], false)
  | r :: rest =>
      if bool_decide (module r = module0) && bool_decide (dependency r = dependency0)
      then (rest, true)
      else let '(rest', found) := Module_removeReason rest module0 dependency0 in
           (r :: rest', found)
  end.

(** [hasReasons()] *)
Definition Module_hasReasons (reasons : list ModuleReason) : bool :=
  bool_decide (0 < length reasons).

(** The inner loop of [hasReasonForChunk] over the chunks of one originating
    module: [Some true] when it returned true. *)
Fixpoint hasReasonForChunk_chunks (st : Graph) (this chunk : nat)
    (originChunks : list nat) : option bool :=
  match originChunks with
  | [] => Some false
  | originChunk :: rest =>
      accessible ← Module_isAccessibleInChunk st this originChunk (Some chunk);
      if negb accessible then Some true
      else hasReasonForChunk_chunks st this chunk rest
  end.

(** [hasReasonForChunk(chunk)].  Reading [chunksIterable] of a reason whose
    module is [null] throws. *)
Fixpoint Module_hasReasonForChunk (st : Graph) (reasons : list ModuleReason)
    (this chunk : nat) : option (Completion bool) :=
  match reasons with
  | [] => Some (Normal false)
  | reason :: rest =>
      match module reason with
      | None => Some (Throws "TypeError: Cannot read property 'chunksIterable' of null")
      | Some fromModule =>
          found ← hasReasonForChunk_chunks st this chunk
                    (_chunks (getModule st fromModule));
          if found : bool then Some (Normal true)
          else Module_hasReasonForChunk st rest this chunk
      end
  end.

(** ** [hasModuleInGraph]

    [ChunkGroupObj] holds no child groups; the traversals that go down the
    hierarchy take them from a store of their own, group handle to
    [childrenIterable]. *)

(** Modelled from the spec: [chunkGroup.childrenIterable], the child groups
    of section 3; a group that the store does not bind has none. *)
Definition childrenIterable (children : gmap nat (list nat)) (g : nat) : list nat :=
  default [] (children !! g).

(** [!filterChunkFn || filterChunkFn(chunk)] *)
Definition chunk_passes (filterChunkFn : option (nat → bool)) (chunk : nat) : bool :=
  match filterChunkFn with
  | None => true
  | Some f => f chunk
  end.

(** The loop of [hasModuleInGraph] over the chunks of one group; it gives
    back [chunksProcessed] and whether it returned true. *)
Fixpoint hasModuleInGraph_chunks (st : Graph) (filterFn : nat → bool)
    (filterChunkFn : option (nat → bool)) (chunksProcessed : list nat)
    (groupChunks : list nat) : list nat * bool :=
  match groupChunks with
  | [] => (chunksProcessed, false)
  | chunk :: rest =>
      if negb (set_has chunk chunksProcessed) then
        let chunksProcessed' := set_add chunk chunksProcessed in
        if chunk_passes filterChunkFn chunk
           && existsb filterFn (_modules (getChunk st chunk))
        then (chunksProcessed', true)
        else hasModuleInGraph_chunks st filterFn filterChunkFn chunksProcessed' rest
      else hasModuleInGraph_chunks st filterFn filterChunkFn chunksProcessed rest
  end.

(** The loop of [hasModuleInGraph] over the growing queue of groups. *)
Fixpoint hasModuleInGraph_loop (st : Graph) (children : gmap nat (list nat))
    (filterFn : nat → bool) (filterChunkFn : option (nat → bool))
    (fuel : nat) (queue : list nat) (i : nat) (chunksProcessed : list nat)
    : option bool :=
  match fuel with
  | O => None
  | S fuel' =>
      match queue !! i with
      | None => Some false
      | Some chunkGroup =>
          let '(chunksProcessed', found) :=
            hasModuleInGraph_chunks st filterFn filterChunkFn chunksProcessed
              (chunks (getChunkGroup st chunkGroup)) in
          if found then Some true
          else hasModuleInGraph_loop st children filterFn filterChunkFn fuel'
                 (set_add_all (childrenIterable children chunkGroup) queue)
                 (S i) chunksProcessed'
      end
  end.

(** Every child link of the store. *)
Definition all_children (children : gmap nat (list nat)) : list nat :=
  map_to_list children ≫= (λ kv, kv.2).

(** [hasModuleInGraph(filterFn, filterChunkFn)]; the fuel is enough for a
    traversal that enqueues child groups only (see
    [Chunk_hasModuleInGraph_total]). *)
Definition Chunk_hasModuleInGraph (st : Graph) (children : gmap nat (list nat))
    (this : nat) (filterFn : nat → bool) (filterChunkFn : option (nat → bool))
    : option bool :=
  let queue := set_of (_groups (getChunk st this)) in
  hasModuleInGraph_loop st children filterFn filterChunkFn
    (S (length queue + length (all_children children))) queue 0 [].

(** The chunk passes the chunk filter and holds a module that passes the
    module filter. *)
Definition chunk_has_match (st : Graph) (filterFn : nat → bool)
    (filterChunkFn : option (nat → bool)) (chunk : nat) : bool :=
  chunk_passes filterChunkFn chunk
  && existsb filterFn (_modules (getChunk st chunk)).

(** What [hasModuleInGraph] does at a group when it skips no chunk. *)
Definition hasModuleInGraph_body (st : Graph) (children : gmap nat (list nat))
    (filterFn : nat → bool) (filterChunkFn : option (nat → bool))
    (chunkGroup : nat) : Step :=
  if existsb (chunk_has_match st filterFn filterChunkFn)
             (chunks (getChunkGroup st chunkGroup))
  then Return true
  else Next (childrenIterable children chunkGroup).

(** [h] is a child group of [g]. *)
Definition child_of (children : gmap nat (list nat)) (g h : nat) : Prop :=
  h ∈ childrenIterable children g.

(** ** Notions the properties are stated with *)

(** A reason is one for the pair of a module and a dependency. *)
Definition reason_matches (module0 dependency0 : option nat) (r : ModuleReason)
    : Prop :=
  module r = module0 ∧ dependency r = dependency0.

(** Every module-chunk edge is recorded on both sides. *)
Definition edge_symmetric (st : Graph) : Prop :=
  ∀ c m, m ∈ _modules (getChunk st c) ↔ c ∈ _chunks (getModule st m).

(** From the group [g] an initial group can be reached along parent links
    without meeting a group that owns the chunk [a]. *)
Inductive reaches_initial_avoiding (st : Graph) (a : nat) : nat → Prop :=
| reaches_here g :
    Chunk_isInGroup st a g = false →
    ChunkGroup_isInitial st g = true →
    reaches_initial_avoiding st a g
| reaches_parent g p :
    Chunk_isInGroup st a g = false →
    ChunkGroup_isInitial st g = false →
    p ∈ parentsIterable (getChunkGroup st g) →
    reaches_initial_avoiding st a p →
    reaches_initial_avoiding st a g.

(** A chunk of the group [g] other than [ignoreChunk] contains the module. *)
Definition group_has_module (st : Graph) (this : nat) (ignoreChunk : option nat)
    (g : nat) : bool :=
  existsb (λ chunk, negb (bool_decide (Some chunk = ignoreChunk))
                    && Chunk_containsModule st chunk this)
          (chunks (getChunkGroup st g)).

(** ** Graphs to evaluate on *)

Definition plain_module (chunks : list nat) (size : Z) : ModuleObj :=
  {| _chunks := chunks; size := size; used := UsedNull;
     usedExports := ExportsNull; buildMeta := None |}.

(** The scenario of section 8: chunk 1 is initial (its group 0 is an entry
    point), has the entry module 10 and the modules 10 and 11; chunk 2 is not
    initial (its group 3 is a child of group 0) and has the modules 11 and
    12.  Module 13 is in no chunk. *)
Definition graph_scenario : Graph :=
  {| moduleStore :=
       <[10 := plain_module [1] 5]> (<[11 := plain_module [1; 2] 7]>
       (<[12 := plain_module [2] 9]> (<[13 := plain_module [] 1]> ∅)));
     chunkStore :=
       <[1 := {| name := Some "main"%string; entryModule := Some 10;
                 _modules := [10; 11]; _groups := [0] |}]>
       (<[2 := {| name := Some "abc"%string; entryModule := None;
                  _modules := [11; 12]; _groups := [3] |}]> ∅);
     groupStore :=
       <[0 := {| chunks := [1]; parentsIterable := []; initial := true |}]>
       (<[3 := {| chunks := [2]; parentsIterable := [0]; initial := false |}]> ∅) |}.

(** Two chunks of one group that is not initial; chunk 1 has the entry
    module 10. *)
Definition graph_siblings : Graph :=
  {| moduleStore :=
       <[10 := plain_module [1] 5]> (<[11 := plain_module [2] 7]> ∅);
     chunkStore :=
       <[1 := {| name := None; entryModule := Some 10;
                 _modules := [10]; _groups := [3] |}]>
       (<[2 := {| name := None; entryModule := None;
                  _modules := [11]; _groups := [3] |}]> ∅);
     groupStore :=
       <[3 := {| chunks := [1; 2]; parentsIterable := []; initial := false |}]> ∅ |}.

(** A chunk owned by the group 3, which is not initial, and then by the
    group 0, which is. *)
Definition graph_two_groups : Graph :=
  {| moduleStore := ∅;
     chunkStore :=
       <[1 := {| name := None; entryModule := None;
                 _modules := []; _groups := [3; 0] |}]> ∅;
     groupStore :=
       <[0 := {| chunks := [1]; parentsIterable := []; initial := true |}]>
       (<[3 := {| chunks := [1]; parentsIterable := []; initial := false |}]> ∅) |}.

(** Chunk 1 holds module 10 and is owned by group 3, but module 10 does not
    list chunk 1: the store after [chunk.addModule(module)] alone. *)
Definition graph_one_sided : Graph :=
  {| moduleStore := <[10 := plain_module [] 5]> ∅;
     chunkStore :=
       <[1 := {| name := None; entryModule := None;
                 _modules := [10]; _groups := [3] |}]> ∅;
     groupStore :=
       <[3 := {| chunks := [1]; parentsIterable := []; initial := false |}]> ∅ |}.

(** The module of the scenario of section 8 on used exports. *)
Definition module_namespace : ModuleObj :=
  {| _chunks := []; size := 0; used := UsedBool true;
     usedExports := ExportsArray ["b"%string];
     buildMeta := Some {| exportsType := Some "namespace"%string;
                          providedExports := Some ["a"; "b"]%string |} |}.

(** * Properties *)

(** ** Sets in insertion order *)

Lemma set_has_true x s : set_has x s = true ↔ x ∈ s.
Proof. unfold set_has. apply bool_decide_eq_true. Qed.

Lemma set_has_false x s : set_has x s = false ↔ x ∉ s.
Proof. unfold set_has. apply bool_decide_eq_false. Qed.

Lemma elem_of_set_add y x s : y ∈ set_add x s ↔ y = x ∨ y ∈ s.
Proof.
  unfold set_add. destruct (set_has x s) eqn:E.
  - apply set_has_true in E. split; [auto | intros [-> | ?]; done].
  - rewrite elem_of_app, list_elem_of_singleton. tauto.
Qed.

Lemma elem_of_set_delete y x s : y ∈ set_delete x s ↔ y ∈ s ∧ y ≠ x.
Proof. unfold set_delete. rewrite list_elem_of_filter. tauto. Qed.

Lemma set_delete_absent x s : x ∉ s → set_delete x s = s.
Proof.
  unfold set_delete. induction s as [| y s IH]; intros Hx; [done |].
  apply not_elem_of_cons in Hx as [Hne Hx].
  rewrite filter_cons_True by congruence. by rewrite IH.
Qed.

Lemma set_has_delete x s : set_has x (set_delete x s) = false.
Proof. apply set_has_false. rewrite elem_of_set_delete. tauto. Qed.

Lemma elem_of_set_add_all y xs s : y ∈ set_add_all xs s ↔ y ∈ xs ∨ y ∈ s.
Proof.
  unfold set_add_all. revert s.
  induction xs as [| x xs IH]; intros s; simpl.
  - rewrite elem_of_nil. tauto.
  - rewrite IH, elem_of_set_add, elem_of_cons. tauto.
Qed.

Lemma elem_of_set_of y xs : y ∈ set_of xs ↔ y ∈ xs.
Proof. unfold set_of. rewrite elem_of_set_add_all, elem_of_nil. tauto. Qed.

Lemma NoDup_set_add x s : NoDup s → NoDup (set_add x s).
Proof.
  intros Hs. unfold set_add. destruct (set_has x s) eqn:E; [done |].
  apply set_has_false in E. apply NoDup_app. split_and!; [done | | apply NoDup_singleton].
  intros y Hy ->%list_elem_of_singleton. done.
Qed.

Lemma NoDup_set_add_all xs s : NoDup s → NoDup (set_add_all xs s).
Proof.
  unfold set_add_all. revert s.
  induction xs as [| x xs IH]; intros s Hs; simpl; [done |].
  apply IH. by apply NoDup_set_add.
Qed.

Lemma NoDup_set_of xs : NoDup (set_of xs).
Proof. apply NoDup_set_add_all, NoDup_nil_2. Qed.

(** Adding to a set keeps the elements it has at their positions. *)
Lemma set_add_all_prefix xs s : s `prefix_of` set_add_all xs s.
Proof.
  unfold set_add_all. revert s.
  induction xs as [| x xs IH]; intros s; simpl; [done |].
  etrans; [| apply IH]. unfold set_add.
  destruct (set_has x s); [done | by apply prefix_app_r].
Qed.

Lemma set_add_all_length xs s : length s ≤ length (set_add_all xs s).
Proof. apply prefix_length, set_add_all_prefix. Qed.

(** ** The store *)

Lemma getChunk_setChunk st c o c' :
  getChunk (setChunk st c o) c' = if decide (c = c') then o else getChunk st c'.
Proof.
  unfold getChunk, setChunk; simpl. rewrite lookup_insert.
  by destruct (decide (c = c')).
Qed.

Lemma getChunk_setChunk_eq st c o : getChunk (setChunk st c o) c = o.
Proof. rewrite getChunk_setChunk. by rewrite decide_True. Qed.

Lemma getChunk_setChunk_ne st c o c' :
  c ≠ c' → getChunk (setChunk st c o) c' = getChunk st c'.
Proof. intros. rewrite getChunk_setChunk. by rewrite decide_False. Qed.

Lemma getModule_setModule st m o m' :
  getModule (setModule st m o) m' = if decide (m = m') then o else getModule st m'.
Proof.
  unfold getModule, setModule; simpl. rewrite lookup_insert.
  by destruct (decide (m = m')).
Qed.

Lemma getChunkGroup_setChunkGroup st g o g' :
  getChunkGroup (setChunkGroup st g o) g'
  = if decide (g = g') then o else getChunkGroup st g'.
Proof.
  unfold getChunkGroup, setChunkGroup; simpl. rewrite lookup_insert.
  by destruct (decide (g = g')).
Qed.

Lemma getChunk_setModule st m o c : getChunk (setModule st m o) c = getChunk st c.
Proof. done. Qed.

Lemma getChunk_setChunkGroup st g o c :
  getChunk (setChunkGroup st g o) c = getChunk st c.
Proof. done. Qed.

Lemma getModule_setChunk st c o m : getModule (setChunk st c o) m = getModule st m.
Proof. done. Qed.

Lemma getModule_setChunkGroup st g o m :
  getModule (setChunkGroup st g o) m = getModule st m.
Proof. done. Qed.

Lemma getChunkGroup_setChunk st c o g :
  getChunkGroup (setChunk st c o) g = getChunkGroup st g.
Proof. done. Qed.

Lemma getChunkGroup_setModule st m o g :
  getChunkGroup (setModule st m o) g = getChunkGroup st g.
Proof. done. Qed.

(** ** The traversals end *)

Section traversal.
Variable body : nat → Step.
Variable universe : list nat.
Hypothesis body_enqueues : ∀ x ys, body x = Next ys → ys ⊆ universe.

(** A queue without repetition inside [universe] cannot be longer than it,
    and every step moves one position on. *)
Lemma for_of_queue_terminates fuel queue i :
  NoDup queue → queue ⊆ universe → i ≤ length queue →
  length universe < fuel + i →
  is_Some (for_of_queue body fuel queue i).
Proof.
  revert queue i.
  induction fuel as [| fuel IH]; intros queue i Hnd Hsub Hi Hfuel.
  - apply NoDup_submseteq with (k := universe) in Hnd; [| done].
    apply submseteq_length in Hnd. lia.
  - simpl. destruct (queue !! i) as [x |] eqn:Hx; [| by eexists].
    apply lookup_lt_Some in Hx.
    destruct (body x) as [ys | b] eqn:Hb; [| by eexists].
    apply IH.
    + by apply NoDup_set_add_all.
    + intros y [Hy | Hy]%elem_of_set_add_all; [| by apply Hsub].
      by apply (body_enqueues x ys).
    + pose proof (set_add_all_length ys queue). lia.
    + lia.
Qed.

(** A body that never returns lets the loop run to its end. *)
Lemma for_of_queue_no_return fuel queue i r :
  (∀ x b, body x ≠ Return b) →
  for_of_queue body fuel queue i = Some r → r = None.
Proof.
  intros Hbody. revert queue i.
  induction fuel as [| fuel IH]; intros queue i; simpl; [done |].
  destruct (queue !! i) as [x |]; [| congruence].
  destruct (body x) as [ys | b] eqn:Hb; [apply IH | by apply Hbody in Hb].
Qed.
End traversal.

Lemma parents_in_all_parents st g :
  parentsIterable (getChunkGroup st g) ⊆ all_parents st.
Proof.
  intros x Hx. unfold getChunkGroup in Hx.
  destruct (groupStore st !! g) as [o |] eqn:Hg; simpl in Hx.
  - unfold all_parents. apply list_elem_of_bind. exists (g, o).
    split; [done | by apply elem_of_map_to_list].
  - by apply elem_of_nil in Hx.
Qed.

(** A traversal that starts from [queue] and enqueues only parents of groups
    ends within [traversal_fuel]. *)
Lemma traversal_terminates st body queue :
  NoDup queue →
  (∀ x ys, body x = Next ys → ∃ g, ys ⊆ parentsIterable (getChunkGroup st g)) →
  is_Some (for_of_queue body (traversal_fuel st queue) queue 0).
Proof.
  intros Hnd Hbody.
  apply for_of_queue_terminates with (universe := queue ++ all_parents st).
  - intros x ys Hx y Hy. apply elem_of_app. right.
    destruct (Hbody x ys Hx) as [g Hg].
    by apply (parents_in_all_parents st g), Hg.
  - done.
  - intros y Hy. apply elem_of_app. by left.
  - lia.
  - unfold traversal_fuel. rewrite length_app. lia.
Qed.

Lemma isAvailable_body_enqueues st a x ys :
  isAvailable_body st a x = Next ys →
  ∃ g, ys ⊆ parentsIterable (getChunkGroup st g).
Proof.
  unfold isAvailable_body. intros H.
  destruct (Chunk_isInGroup st a x).
  - injection H as <-. exists x. intros y Hy. by apply elem_of_nil in Hy.
  - destruct (ChunkGroup_isInitial st x); [done |].
    injection H as <-. by exists x.
Qed.

Lemma isAvailable_total st a b : is_Some (isAvailable st a b).
Proof.
  unfold isAvailable.
  destruct (traversal_terminates st (isAvailable_body st a)
              (set_of (_groups (getChunk st b)))) as [r Hr].
  - apply NoDup_set_of.
  - apply isAvailable_body_enqueues.
  - rewrite Hr. by eexists.
Qed.

(** [canBeIntegrated] always answers. *)
Lemma Chunk_canBeIntegrated_total st a b : is_Some (Chunk_canBeIntegrated st a b).
Proof.
  unfold Chunk_canBeIntegrated.
  repeat case_match; try (by eexists); apply isAvailable_total.
Qed.

Lemma isAccessibleInChunkGroup_body_enqueues st m g ignore x ys :
  isAccessibleInChunkGroup_body st m g ignore x = Next ys →
  ∃ g', ys ⊆ parentsIterable (getChunkGroup st g').
Proof.
  unfold isAccessibleInChunkGroup_body. intros H.
  destruct (existsb _ _).
  - injection H as <-. exists g. intros y Hy. by apply elem_of_nil in Hy.
  - destruct (ChunkGroup_isInitial st g); [done |].
    injection H as <-. by exists g.
Qed.

(** [isAccessibleInChunkGroup] always answers. *)
Lemma Module_isAccessibleInChunkGroup_total st m g ignore :
  is_Some (Module_isAccessibleInChunkGroup st m g ignore).
Proof.
  unfold Module_isAccessibleInChunkGroup.
  destruct (traversal_terminates st (isAccessibleInChunkGroup_body st m g ignore)
              (set_of [g])) as [r Hr].
  - apply NoDup_set_of.
  - apply isAccessibleInChunkGroup_body_enqueues.
  - rewrite Hr. by eexists.
Qed.

(** From a group that is not initial the traversal of [isAccessibleInChunkGroup]
    has no way to fail: its test of initiality and the parents it enqueues are
    those of the group it started from. *)
Lemma Module_isAccessibleInChunkGroup_not_initial st m g ignore :
  ChunkGroup_isInitial st g = false →
  Module_isAccessibleInChunkGroup st m g ignore = Some true.
Proof.
  intros Hg.
  destruct (Module_isAccessibleInChunkGroup_total st m g ignore) as [r Hr].
  rewrite Hr. unfold Module_isAccessibleInChunkGroup in Hr.
  destruct (for_of_queue _ _ _ _) as [r' |] eqn:Hloop; [| done].
  apply for_of_queue_no_return in Hloop as ->.
  - simpl in Hr. congruence.
  - intros x b. unfold isAccessibleInChunkGroup_body. rewrite Hg.
    by destruct (existsb _ _).
Qed.

(** ** Removing a module-chunk edge *)

(** What [Chunk.removeModule] does, its nested calls unfolded: it deletes the
    module from the chunk and, when it was there, the chunk from the module. *)
Lemma Chunk_removeModule_rec_eq depth st c m :
  3 ≤ depth →
  Chunk_removeModule_rec depth st c m =
  Some (if set_has m (_modules (getChunk st c)) then
          let st1 := setChunk st c (with_modules (getChunk st c)
                                      (set_delete m (_modules (getChunk st c)))) in
          (if set_has c (_chunks (getModule st m))
           then setModule st1 m (with_chunks (getModule st m)
                                   (set_delete c (_chunks (getModule st m))))
           else st1, true)
        else (st, false)).
Proof.
  intros Hd. destruct depth as [| [| [| d]]]; try lia.
  cbn [Chunk_removeModule_rec Module_removeChunk_rec].
  destruct (set_has m (_modules (getChunk st c))); [| done].
  rewrite getModule_setChunk.
  destruct (set_has c (_chunks (getModule st m))); [| done].
  rewrite getChunk_setModule, getChunk_setChunk_eq. simpl.
  by rewrite set_has_delete.
Qed.

Lemma Module_removeChunk_rec_eq depth st m c :
  3 ≤ depth →
  Module_removeChunk_rec depth st m c =
  Some (if set_has c (_chunks (getModule st m)) then
          let st1 := setModule st m (with_chunks (getModule st m)
                                       (set_delete c (_chunks (getModule st m)))) in
          (if set_has m (_modules (getChunk st c))
           then setChunk st1 c (with_modules (getChunk st c)
                                  (set_delete m (_modules (getChunk st c))))
           else st1, true)
        else (st, false)).
Proof.
  intros Hd. destruct depth as [| [| [| d]]]; try lia.
  cbn [Chunk_removeModule_rec Module_removeChunk_rec].
  destruct (set_has c (_chunks (getModule st m))); [| done].
  rewrite getChunk_setModule.
  destruct (set_has m (_modules (getChunk st c))); [| done].
  rewrite getModule_setChunk, getModule_setModule, decide_True by done. simpl.
  by rewrite set_has_delete.
Qed.

(** A depth of three is enough: any larger one gives the same result. *)
Lemma Chunk_removeModule_depth depth st c m :
  3 ≤ depth → Chunk_removeModule_rec depth st c m = Chunk_removeModule st c m.
Proof.
  intros Hd. unfold Chunk_removeModule.
  by rewrite !Chunk_removeModule_rec_eq by lia.
Qed.

Lemma Module_removeChunk_depth depth st m c :
  3 ≤ depth → Module_removeChunk_rec depth st m c = Module_removeChunk st m c.
Proof.
  intros Hd. unfold Module_removeChunk.
  by rewrite !Module_removeChunk_rec_eq by lia.
Qed.

(** The effect of [Module.removeChunk] on what the objects hold. *)
Lemma Module_removeChunk_effect st m c :
  ∃ st' b, Module_removeChunk st m c = Some (st', b)
    ∧ (∀ m', _chunks (getModule st' m')
             = if decide (m = m') then set_delete c (_chunks (getModule st m))
               else _chunks (getModule st m'))
    ∧ (∀ c', _modules (getChunk st' c')
             = if decide (c = c' ∧ c ∈ _chunks (getModule st m))
               then set_delete m (_modules (getChunk st c))
               else _modules (getChunk st c'))
    ∧ (∀ c', _groups (getChunk st' c') = _groups (getChunk st c'))
    ∧ (∀ c', name (getChunk st' c') = name (getChunk st c'))
    ∧ (∀ g, getChunkGroup st' g = getChunkGroup st g).
Proof.
  unfold Module_removeChunk. rewrite Module_removeChunk_rec_eq by lia.
  destruct (set_has c (_chunks (getModule st m))) eqn:Hc.
  - apply set_has_true in Hc.
    destruct (set_has m (_modules (getChunk st c))) eqn:Hm.
    + eexists _, _. split; [done |]. split_and!; intros x.
      * rewrite getModule_setChunk, getModule_setModule. by case_decide.
      * rewrite getChunk_setChunk.
        destruct (decide (c = x)) as [<- |]; [by rewrite decide_True |].
        rewrite decide_False by tauto. done.
      * rewrite getChunk_setChunk. by destruct (decide (c = x)) as [<- |].
      * rewrite getChunk_setChunk. by destruct (decide (c = x)) as [<- |].
      * done.
    + apply set_has_false in Hm.
      eexists _, _. split; [done |]. split_and!; intros x.
      * rewrite getModule_setModule. by case_decide.
      * rewrite getChunk_setModule.
        destruct (decide (c = x)) as [<- |]; [| by rewrite decide_False by tauto].
        rewrite decide_True by done. by rewrite set_delete_absent.
      * done.
      * done.
      * done.
  - apply set_has_false in Hc.
    eexists _, _. split; [done |]. split_and!; intros x; try done.
    + case_decide; [subst; by rewrite set_delete_absent | done].
    + by rewrite decide_False by tauto.
Qed.

(** The effect of [Chunk.removeModule] on what the objects hold. *)
Lemma Chunk_removeModule_effect st c m :
  ∃ st' b, Chunk_removeModule st c m = Some (st', b)
    ∧ (∀ c', _modules (getChunk st' c')
             = if decide (c = c') then set_delete m (_modules (getChunk st c))
               else _modules (getChunk st c'))
    ∧ (∀ m', _chunks (getModule st' m')
             = if decide (m = m' ∧ m ∈ _modules (getChunk st c))
               then set_delete c (_chunks (getModule st m))
               else _chunks (getModule st m'))
    ∧ (∀ c', _groups (getChunk st' c') = _groups (getChunk st c'))
    ∧ (∀ c', name (getChunk st' c') = name (getChunk st c'))
    ∧ (∀ g, getChunkGroup st' g = getChunkGroup st g).
Proof.
  unfold Chunk_removeModule. rewrite Chunk_removeModule_rec_eq by lia.
  destruct (set_has m (_modules (getChunk st c))) eqn:Hm.
  - apply set_has_true in Hm.
    destruct (set_has c (_chunks (getModule st m))) eqn:Hc.
    + eexists _, _. split; [done |]. split_and!; intros x.
      * rewrite getChunk_setModule, getChunk_setChunk. by case_decide.
      * rewrite getModule_setModule.
        destruct (decide (m = x)) as [<- |]; [by rewrite decide_True |].
        rewrite decide_False by tauto. done.
      * rewrite getChunk_setModule, getChunk_setChunk.
        by destruct (decide (c = x)) as [<- |].
      * rewrite getChunk_setModule, getChunk_setChunk.
        by destruct (decide (c = x)) as [<- |].
      * done.
    + apply set_has_false in Hc.
      eexists _, _. split; [done |]. split_and!; intros x.
      * rewrite getChunk_setChunk. by case_decide.
      * rewrite getModule_setChunk.
        destruct (decide (m = x)) as [<- |]; [| by rewrite decide_False by tauto].
        rewrite decide_True by done. by rewrite set_delete_absent.
      * rewrite getChunk_setChunk. by destruct (decide (c = x)) as [<- |].
      * rewrite getChunk_setChunk. by destruct (decide (c = x)) as [<- |].
      * done.
  - apply set_has_false in Hm.
    eexists _, _. split; [done |]. split_and!; intros x; try done.
    + case_decide; [subst; by rewrite set_delete_absent | done].
    + by rewrite decide_False by tauto.
Qed.

(** ** [Chunk.remove] *)

Lemma for_each_cons {A S} (body : S → A → option S) st x xs :
  for_each body st (x :: xs) = st' ← body st x; for_each body st' xs.
Proof. done. Qed.

(** The first loop of [remove], from any store and over any list of modules. *)
Lemma remove_modules_loop c ms : ∀ st,
  ∃ st', for_each (λ st module,
                     '(st', _) ← Module_removeChunk st module c; Some st') st ms
         = Some st'
    ∧ (∀ x, x ∈ _modules (getChunk st' c) →
            x ∈ _modules (getChunk st c)
            ∧ (x ∉ ms ∨ c ∉ _chunks (getModule st x)))
    ∧ (∀ m, m ∈ ms → c ∉ _chunks (getModule st' m))
    ∧ (∀ m x, x ∈ _chunks (getModule st' m) → x ∈ _chunks (getModule st m))
    ∧ (∀ c', _groups (getChunk st' c') = _groups (getChunk st c'))
    ∧ (∀ g, getChunkGroup st' g = getChunkGroup st g).
Proof.
  induction ms as [| m ms IH]; intros st.
  - exists st. split; [done |]. split_and!; try done.
    + intros x Hx. split; [done |]. left. apply not_elem_of_nil.
    + intros m Hm. by apply elem_of_nil in Hm.
  - destruct (Module_removeChunk_effect st m c)
      as (st1 & b & Hrun & Hchunks & Hmods & Hgroups & _ & Hcg).
    destruct (IH st1) as (st' & Hloop & Hleft & Hgone & Hshrink & Hgroups' & Hcg').
    exists st'. rewrite for_each_cons, Hrun. simpl. split; [done |].
    assert (Hsub : ∀ m' x, x ∈ _chunks (getModule st1 m') →
                           x ∈ _chunks (getModule st m')).
    { intros m' x. rewrite Hchunks.
      destruct (decide (m = m')) as [<- |]; [| done].
      rewrite elem_of_set_delete. tauto. }
    split_and!.
    + intros x Hx. apply Hleft in Hx as [Hx Hor].
      rewrite Hmods in Hx.
      destruct (decide (x = m)) as [-> | Hne].
      * destruct (decide (c = c ∧ c ∈ _chunks (getModule st m))) as [Hd | Hd].
        -- apply elem_of_set_delete in Hx. tauto.
        -- split; [done |]. right. tauto.
      * split.
        -- destruct (decide (c = c ∧ c ∈ _chunks (getModule st m)));
             [apply elem_of_set_delete in Hx; tauto | done].
        -- destruct Hor as [Hor | Hor].
           ++ left. rewrite not_elem_of_cons. tauto.
           ++ right. rewrite Hchunks in Hor. by rewrite decide_False in Hor.
    + intros m' [-> | Hm']%elem_of_cons; [| by apply Hgone].
      intros Hin%Hshrink. rewrite Hchunks, decide_True in Hin by done.
      apply elem_of_set_delete in Hin. tauto.
    + intros m' x Hx. by apply Hsub, Hshrink.
    + intros c'. by rewrite Hgroups'.
    + intros g. by rewrite Hcg'.
Qed.

Lemma getChunk_ChunkGroup_removeChunk st g c x :
  getChunk (ChunkGroup_removeChunk st g c) x = getChunk st x.
Proof. unfold ChunkGroup_removeChunk. by case_match. Qed.

Lemma getModule_ChunkGroup_removeChunk st g c x :
  getModule (ChunkGroup_removeChunk st g c) x = getModule st x.
Proof. unfold ChunkGroup_removeChunk. by case_match. Qed.

(** The second loop of [remove] touches group objects only. *)
Lemma remove_groups_loop c gs : ∀ st,
  let st' := foldl (λ st chunkGroup, ChunkGroup_removeChunk st chunkGroup c) st gs in
  (∀ x, getChunk st' x = getChunk st x) ∧ (∀ x, getModule st' x = getModule st x).
Proof.
  induction gs as [| g gs IH]; intros st; simpl; [done |].
  destruct (IH (ChunkGroup_removeChunk st g c)) as [Hc Hm].
  split; intros x.
  - by rewrite Hc, getChunk_ChunkGroup_removeChunk.
  - by rewrite Hm, getModule_ChunkGroup_removeChunk.
Qed.

(** C10, amended.  In a graph where every member module of the chunk [c]
    lists [c] among its chunks (the edge symmetry of the data model),
    [c.remove()] returns; afterwards [c] has no member module, no former
    member module has [c] in its chunk set, and the set of groups that own
    [c] is as it was: [c.isInGroup(g)] still holds of every group that owned
    [c].  The group set need not be non-empty for this. *)
Theorem Chunk_remove_keeps_owning_groups st c :
  (∀ m, Chunk_containsModule st c m = true → Module_isInChunk st m c = true) →
  ∃ st', Chunk_remove st c = Some st'
    ∧ Chunk_isEmpty st' c = true
    ∧ (∀ m, Chunk_containsModule st c m = true → Module_isInChunk st' m c = false)
    ∧ _groups (getChunk st' c) = _groups (getChunk st c)
    ∧ (∀ g, Chunk_isInGroup st c g = true → Chunk_isInGroup st' c g = true).
Proof.
  intros Hsym. unfold Chunk_remove.
  destruct (remove_modules_loop c (_modules (getChunk st c)) st)
    as (st1 & Hloop & Hleft & Hgone & _ & Hgroups & _).
  rewrite Hloop. simpl.
  destruct (remove_groups_loop c (_groups (getChunk st1 c)) st1) as [Hc Hm].
  eexists. split; [done |].
  assert (Hempty : _modules (getChunk st1 c) = []).
  { destruct (_modules (getChunk st1 c)) as [| x l] eqn:E; [done |].
    destruct (Hleft x) as [Hx [Hno | Hno]]; [left | done |].
    exfalso. apply Hno. apply set_has_true.
    apply (Hsym x). by apply set_has_true. }
  split_and!.
  - unfold Chunk_isEmpty. rewrite Hc, Hempty. done.
  - intros m Hin%set_has_true. unfold Module_isInChunk. rewrite Hm.
    apply set_has_false. by apply Hgone.
  - by rewrite Hc, Hgroups.
  - intros g. unfold Chunk_isInGroup. by rewrite Hc, Hgroups.
Qed.

(** ** [Chunk.integrate] *)

Arguments Chunk_removeModule : simpl never.
Arguments Module_removeChunk : simpl never.

(** The effect of [Chunk.moveModule(module, otherChunk)]. *)
Lemma Chunk_moveModule_effect st this m other :
  ∃ st', Chunk_moveModule st this m other = Some st'
    ∧ m ∈ _modules (getChunk st' other)
    ∧ (other ≠ this → ∀ x, x ∈ _modules (getChunk st other) →
                           x ∈ _modules (getChunk st' other))
    ∧ (∀ c, _groups (getChunk st' c) = _groups (getChunk st c))
    ∧ (∀ c, name (getChunk st' c) = name (getChunk st c))
    ∧ (∀ g, getChunkGroup st' g = getChunkGroup st g).
Proof.
  unfold Chunk_moveModule, GraphHelpers_disconnectChunkAndModule.
  destruct (Chunk_removeModule_effect st this m)
    as (st1 & b1 & -> & Hmods1 & _ & Hgroups1 & Hname1 & Hcg1).
  destruct (Module_removeChunk_effect st1 m this)
    as (st2 & b2 & Hrun2 & _ & Hmods2 & Hgroups2 & Hname2 & Hcg2).
  simpl. rewrite Hrun2. simpl. eexists. split; [done |].
  unfold GraphHelpers_connectChunkAndModule.
  set (st3 := (Module_addChunk st2 m other).1).
  assert (Hst3 : ∀ c, getChunk st3 c = getChunk st2 c).
  { intros c. unfold st3, Module_addChunk. by case_match. }
  assert (Hcg3 : ∀ g, getChunkGroup st3 g = getChunkGroup st2 g).
  { intros g. unfold st3, Module_addChunk. by case_match. }
  unfold Chunk_addModule.
  destruct (set_has m (_modules (getChunk st3 other))) eqn:Hhas; simpl.
  - apply set_has_true in Hhas. split_and!.
    + done.
    + intros Hne x Hx. rewrite Hst3, Hmods2.
      rewrite decide_False by (intros [? _]; congruence).
      rewrite Hmods1. by rewrite decide_False by congruence.
    + intros c. by rewrite Hst3, Hgroups2, Hgroups1.
    + intros c. by rewrite Hst3, Hname2, Hname1.
    + intros g. by rewrite Hcg3, Hcg2, Hcg1.
  - split_and!.
    + rewrite getChunk_setChunk_eq. simpl. apply elem_of_set_add. by left.
    + intros Hne x Hx. rewrite getChunk_setChunk_eq. simpl.
      apply elem_of_set_add. right. rewrite Hst3, Hmods2.
      rewrite decide_False by (intros [? _]; congruence).
      rewrite Hmods1. by rewrite decide_False by congruence.
    + intros c. rewrite getChunk_setChunk.
      destruct (decide (other = c)) as [<- |]; simpl;
        by rewrite Hst3, Hgroups2, Hgroups1.
    + intros c. rewrite getChunk_setChunk.
      destruct (decide (other = c)) as [<- |]; simpl;
        by rewrite Hst3, Hname2, Hname1.
    + intros g. by rewrite getChunkGroup_setChunk, Hcg3, Hcg2, Hcg1.
Qed.

(** The module loop of [integrate]. *)
Lemma integrate_modules_loop this other ms : ∀ st,
  ∃ st', for_each (λ st module, Chunk_moveModule st other module this) st ms
         = Some st'
    ∧ (this ≠ other → ∀ m, m ∈ ms ∨ m ∈ _modules (getChunk st this) →
                           m ∈ _modules (getChunk st' this))
    ∧ (∀ c, _groups (getChunk st' c) = _groups (getChunk st c))
    ∧ (∀ c, name (getChunk st' c) = name (getChunk st c))
    ∧ (∀ g, getChunkGroup st' g = getChunkGroup st g).
Proof.
  induction ms as [| m ms IH]; intros st.
  - exists st. split; [done |]. split_and!; try done.
    intros _ m [Hm | Hm]; [by apply elem_of_nil in Hm | done].
  - destruct (Chunk_moveModule_effect st other m this)
      as (st1 & Hrun & Hin & Hkeep & Hgroups & Hname & Hcg).
    destruct (IH st1) as (st' & Hloop & Hall & Hgroups' & Hname' & Hcg').
    exists st'. rewrite for_each_cons, Hrun. simpl. split; [done |].
    split_and!.
    + intros Hne x [[-> | Hx]%elem_of_cons | Hx]; apply (Hall Hne); auto.
    + intros c. by rewrite Hgroups'.
    + intros c. by rewrite Hname'.
    + intros g. by rewrite Hcg'.
Qed.

Lemma ChunkGroup_replaceChunk_effect st g b a :
  let st' := ChunkGroup_replaceChunk st g b a in
  (∀ c, getChunk st' c = getChunk st c)
  ∧ (∀ g', g' ≠ g → getChunkGroup st' g' = getChunkGroup st g')
  ∧ (a ≠ b → b ∉ chunks (getChunkGroup st' g))
  ∧ (b ∈ chunks (getChunkGroup st g) → a ∈ chunks (getChunkGroup st' g))
  ∧ (a ∈ chunks (getChunkGroup st g) → a ∈ chunks (getChunkGroup st' g)).
Proof.
  unfold ChunkGroup_replaceChunk.
  destruct (set_has b (chunks (getChunkGroup st g))) eqn:Hb; simpl.
  - apply set_has_true in Hb. split_and!.
    + done.
    + intros g' Hne. rewrite getChunkGroup_setChunkGroup.
      by rewrite decide_False by congruence.
    + intros Hne. rewrite getChunkGroup_setChunkGroup, decide_True by done.
      simpl. rewrite elem_of_set_of, list_elem_of_fmap.
      intros (c & Hc & _). case_bool_decide; congruence.
    + intros _. rewrite getChunkGroup_setChunkGroup, decide_True by done.
      simpl. rewrite elem_of_set_of, list_elem_of_fmap.
      exists b. split; [by rewrite bool_decide_eq_true_2 | done].
    + intros Ha. rewrite getChunkGroup_setChunkGroup, decide_True by done.
      simpl. rewrite elem_of_set_of, list_elem_of_fmap.
      exists a. split; [by case_bool_decide | done].
  - apply set_has_false in Hb. split_and!; try done.
Qed.

Lemma integrate_group_step_effect a b st g :
  let st' := integrate_group_step a b st g in
  (∀ c, _modules (getChunk st' c) = _modules (getChunk st c))
  ∧ (∀ c, name (getChunk st' c) = name (getChunk st c))
  ∧ (∀ x, x ∈ _groups (getChunk st' a) ↔ x = g ∨ x ∈ _groups (getChunk st a))
  ∧ (∀ c, c ≠ a → _groups (getChunk st' c) = _groups (getChunk st c))
  ∧ (∀ g', g' ≠ g → getChunkGroup st' g' = getChunkGroup st g')
  ∧ (a ≠ b → b ∉ chunks (getChunkGroup st' g))
  ∧ (b ∈ chunks (getChunkGroup st g) → a ∈ chunks (getChunkGroup st' g))
  ∧ (a ∈ chunks (getChunkGroup st g) → a ∈ chunks (getChunkGroup st' g)).
Proof.
  unfold integrate_group_step.
  destruct (ChunkGroup_replaceChunk_effect st g b a)
    as (Hc & Hother & Hgone & Hin & Hkeep).
  set (st1 := ChunkGroup_replaceChunk st g b a) in *.
  unfold Chunk_addGroup.
  destruct (set_has g (_groups (getChunk st1 a))) eqn:Hg; simpl.
  - apply set_has_true in Hg. rewrite Hc in Hg. split_and!; try done.
    + intros c. by rewrite Hc.
    + intros c. by rewrite Hc.
    + intros x. rewrite Hc. split; [auto | intros [-> | ?]; done].
    + intros c _. by rewrite Hc.
  - split_and!; try done.
    + intros c. rewrite getChunk_setChunk.
      destruct (decide (a = c)) as [<- |]; simpl; by rewrite Hc.
    + intros c. rewrite getChunk_setChunk.
      destruct (decide (a = c)) as [<- |]; simpl; by rewrite Hc.
    + intros x. rewrite getChunk_setChunk_eq. simpl.
      by rewrite elem_of_set_add, Hc.
    + intros c Hne. rewrite getChunk_setChunk_ne by congruence. by rewrite Hc.
Qed.

(** The group loop of [integrate]. *)
Lemma integrate_groups_loop a b gs : ∀ st,
  let st' := foldl (integrate_group_step a b) st gs in
  (∀ c, _modules (getChunk st' c) = _modules (getChunk st c))
  ∧ (∀ c, name (getChunk st' c) = name (getChunk st c))
  ∧ (∀ x, x ∈ gs ∨ x ∈ _groups (getChunk st a) → x ∈ _groups (getChunk st' a))
  ∧ (∀ c, c ≠ a → _groups (getChunk st' c) = _groups (getChunk st c))
  ∧ (a ≠ b → ∀ g, g ∈ gs ∨ b ∉ chunks (getChunkGroup st g) →
                  b ∉ chunks (getChunkGroup st' g))
  ∧ (∀ g, a ∈ chunks (getChunkGroup st g) → a ∈ chunks (getChunkGroup st' g))
  ∧ (∀ g, g ∈ gs → b ∈ chunks (getChunkGroup st g) →
          a ∈ chunks (getChunkGroup st' g)).
Proof.
  induction gs as [| g0 gs IH]; intros st; simpl.
  - split_and!; try done.
    + intros x [Hx | Hx]; [by apply elem_of_nil in Hx | done].
    + intros _ g [Hg | Hg]; [by apply elem_of_nil in Hg | done].
    + intros g Hg. by apply elem_of_nil in Hg.
  - destruct (integrate_group_step_effect a b st g0)
      as (Hm & Hn & Hga & Hgo & Hother & Hgone & Hin & Hkeep).
    set (st1 := integrate_group_step a b st g0) in *.
    destruct (IH st1) as (Hm' & Hn' & Hga' & Hgo' & Hgone' & Hkeep' & Hin').
    assert (Hkeep1 : ∀ g, a ∈ chunks (getChunkGroup st g) →
                          a ∈ chunks (getChunkGroup st1 g)).
    { intros g Ha. destruct (decide (g = g0)) as [-> |]; [by apply Hkeep |].
      by rewrite Hother. }
    split_and!.
    + intros c. by rewrite Hm'.
    + intros c. by rewrite Hn'.
    + intros x Hx. apply Hga'. rewrite Hga, elem_of_cons in *. tauto.
    + intros c Hne. rewrite Hgo' by done. by apply Hgo.
    + intros Hne g Hg. apply (Hgone' Hne).
      destruct (decide (g = g0)) as [-> |]; [right; by apply Hgone |].
      rewrite Hother by done. rewrite elem_of_cons in Hg. tauto.
    + intros g Ha. by apply Hkeep', Hkeep1.
    + intros g Hg Hb. destruct (decide (g = g0)) as [-> |].
      * by apply Hkeep', Hin.
      * apply Hin'; [| by rewrite Hother].
        rewrite elem_of_cons in Hg. tauto.
Qed.





(** ** [isAccessibleInChunkGroup] *)

(** The traversal as the spec words it always answers as well. *)
Lemma isAccessibleInChunkGroup_spec_total st m g ignore :
  is_Some (isAccessibleInChunkGroup_spec st m g ignore).
Proof.
  unfold isAccessibleInChunkGroup_spec.
  destruct (traversal_terminates st (isAccessibleInChunkGroup_spec_body st m ignore)
              (set_of [g])) as [r Hr].
  - apply NoDup_set_of.
  - intros x ys. unfold isAccessibleInChunkGroup_spec_body.
    destruct (existsb _ _).
    + intros [= <-]. exists x. intros y Hy. by apply elem_of_nil in Hy.
    + destruct (ChunkGroup_isInitial st x); [done |].
      intros [= <-]. by exists x.
  - rewrite Hr. by eexists.
Qed.

(** C1.  Module 13 of [graph_scenario] is in no chunk; group 3 is not
    initial and its only parent, group 0, is initial.  The traversal the
    claim describes fails at group 0; [isAccessibleInChunkGroup] tests the
    initiality of group 3 again when it visits group 0 and returns true. *)
Theorem isAccessibleInChunkGroup_tests_start_group :
  Module_isAccessibleInChunkGroup graph_scenario 13 3 None = Some true
  ∧ isAccessibleInChunkGroup_spec graph_scenario 13 3 None = Some false.
Proof. split; vm_compute; reflexivity. Qed.

(** ** [isInitial] *)

(** C3, amended.  [c.isInitial()] is true if and only if [c] has an owning
    group and the first one in iteration order is initial. *)
Theorem Chunk_isInitial_first_group st c :
  Chunk_isInitial st c = true
  ↔ ∃ g, head (_groups (getChunk st c)) = Some g ∧ ChunkGroup_isInitial st g = true.
Proof.
  unfold Chunk_isInitial.
  destruct (_groups (getChunk st c)) as [| g gs]; simpl.
  - split; [done | by intros (g & Hg & _)].
  - split; [intros H; by exists g | by intros (g' & [= <-] & Hg)].
Qed.

(** C3 as stated fails: chunk 1 of [graph_two_groups] is owned by the
    initial group 0, and [isInitial()] is false, its first group being 3. *)
Lemma Chunk_isInitial_misses_later_group :
  Chunk_isInitial graph_two_groups 1 = false
  ∧ Chunk_isInGroup graph_two_groups 1 0 = true
  ∧ ChunkGroup_isInitial graph_two_groups 0 = true.
Proof. split_and!; vm_compute; reflexivity. Qed.

(** ** [canBeIntegrated] *)

(** C2, amended.  When the two chunks agree on [isInitial()] and either has
    an entry module, [a.canBeIntegrated(b)] is false. *)
Theorem Chunk_canBeIntegrated_entry_module st a b :
  Chunk_isInitial st a = Chunk_isInitial st b →
  Chunk_hasEntryModule st a = true ∨ Chunk_hasEntryModule st b = true →
  Chunk_canBeIntegrated st a b = Some false.
Proof.
  intros Hinit Hentry. unfold Chunk_canBeIntegrated.
  rewrite Hinit, Bool.eqb_reflx. simpl.
  by destruct Hentry as [-> | ->]; rewrite ?orb_true_r.
Qed.

Lemma Chunk_canBeIntegrated_entry_module_witness :
  Chunk_canBeIntegrated graph_siblings 1 2 = Some false.
Proof.
  apply (Chunk_canBeIntegrated_entry_module graph_siblings 1 2).
  - vm_compute; reflexivity.
  - left. vm_compute; reflexivity.
Defined.

(** C2 as stated fails: in [graph_scenario] chunk 1 has an entry module and
    is initial, chunk 2 is not initial, and [canBeIntegrated] is true. *)
Lemma Chunk_canBeIntegrated_despite_entry_module :
  Chunk_hasEntryModule graph_scenario 1 = true
  ∧ Chunk_canBeIntegrated graph_scenario 1 2 = Some true.
Proof. split; vm_compute; reflexivity. Qed.

(** C6.  When [a.canBeIntegrated(b)] is false, [a.integrate(b)] returns
    false and leaves the store as it was, and [a.integratedSize(b, options)]
    returns false. *)
Theorem Chunk_integrate_infeasible st a b options :
  Chunk_canBeIntegrated st a b = Some false →
  Chunk_integrate st a b = Some (st, false)
  ∧ Chunk_integratedSize st a b options = Some SizeFalse.
Proof.
  intros H. unfold Chunk_integrate, Chunk_integratedSize. by rewrite H.
Qed.

Lemma Chunk_integrate_infeasible_witness :
  Chunk_integrate graph_siblings 1 2 = Some (graph_siblings, false)
  ∧ Chunk_integratedSize graph_siblings 1 2 (mkOptions None None) = Some SizeFalse.
Proof.
  apply (Chunk_integrate_infeasible graph_siblings 1 2).
  vm_compute; reflexivity.
Defined.

(** [integrate] always returns. *)
Lemma Chunk_integrate_total st a b : is_Some (Chunk_integrate st a b).
Proof.
  unfold Chunk_integrate.
  destruct (Chunk_canBeIntegrated_total st a b) as [[|] ->]; simpl; [| by eexists].
  destruct (integrate_modules_loop a b (_modules (getChunk st b)) st)
    as (st1 & -> & _).
  by eexists.
Qed.

(** ** The size functions *)








(** ** [isUsed] *)

(** C4, amended.  For a module with [exportsType] "namespace",
    [providedExports] ["a","b"], [used] true and [usedExports] ["b"],
    [isUsed("b")] returns [Template.numberToIdentifer(0)], 0 being the
    position of "b" in [usedExports], and [isUsed("a")] returns false. *)
Theorem Module_isUsed_namespace (this : ModuleObj) :
  used this = UsedBool true →
  usedExports this = ExportsArray ["b"%string] →
  buildMeta this = Some {| exportsType := Some "namespace"%string;
                           providedExports := Some ["a"; "b"]%string |} →
  Module_isUsed this (Some "b"%string) = Normal (ResultIdentifier 0)
  ∧ Module_isUsed this (Some "a"%string) = Normal (ResultBool false).
Proof.
  intros Hused Hexports Hmeta.
  unfold Module_isUsed, Module_isProvided. rewrite Hused, Hexports, Hmeta.
  split; reflexivity.
Qed.

Lemma Module_isUsed_namespace_witness :
  Module_isUsed module_namespace (Some "b"%string) = Normal (ResultIdentifier 0)
  ∧ Module_isUsed module_namespace (Some "a"%string) = Normal (ResultBool false).
Proof.
  apply (Module_isUsed_namespace module_namespace); reflexivity.
Defined.

(** C4 as stated fails: the identifier [isUsed("b")] returns is the one for
    index 0, not the one for index 1, the position of "b" in
    [providedExports]. *)
Lemma Module_isUsed_index_of_usedExports :
  Module_isUsed module_namespace (Some "b"%string) = Normal (ResultIdentifier 0)
  ∧ indexOf "b" ["a"; "b"]%string = 1%Z
  ∧ Module_isUsed module_namespace (Some "b"%string) ≠ Normal (ResultIdentifier 1).
Proof. split_and!; [reflexivity | reflexivity | discriminate]. Qed.

(** ** [getNumberOfGroups] *)

(** C8.  In every store and for every chunk, [getNumberOfGroups()] returns
    [undefined], which is not the number of the groups that own the chunk;
    [getNumberOfModules()], which reads [size], returns the number of
    modules. *)
Theorem Chunk_getNumberOfGroups_undefined st c :
  Chunk_getNumberOfGroups st c = JSUndefined
  ∧ Chunk_getNumberOfGroups st c
    ≠ JSNumber (Z.of_nat (length (_groups (getChunk st c))))
  ∧ Chunk_getNumberOfModules st c
    = JSNumber (Z.of_nat (length (_modules (getChunk st c)))).
Proof. split_and!; [reflexivity | discriminate | reflexivity]. Qed.

(** ** Removed accessors *)

(** C9, amended.  For each of the eight accessors, in every store, on every
    object and for every value written, reading and writing throw.  The
    message names the operation to use instead, except for
    [Module.arguments], whose message says that there is no replacement. *)
Theorem removed_accessors_throw st this a value :
  ∃ onRead onWrite,
    accessor_get st this a = Throws onRead
    ∧ accessor_set st this a value = Throws onWrite
    ∧ match named_on_read a, named_on_write a with
      | Some r, Some w =>
          mentions ("Use " +:+ r) onRead = true
          ∧ mentions ("Use " +:+ w) onWrite = true
      | _, _ =>
          a = Module_arguments
          ∧ mentions "there is no replacement" onRead = true
          ∧ mentions "there is no replacement" onWrite = true
      end.
Proof.
  destruct a; eexists _, _; (split; [reflexivity |]); (split; [reflexivity |]);
    simpl; split_and?; vm_compute; reflexivity.
Qed.

(** C9 as stated fails: the message of [Module.arguments] tells the caller
    of no operation to use. *)
Lemma Module_arguments_names_no_replacement :
  accessor_get graph_scenario 10 Module_arguments
  = Throws "Module.arguments was removed, there is no replacement."
  ∧ accessor_set graph_scenario 10 Module_arguments JSUndefined
    = Throws "Module.arguments was removed, there is no replacement."
  ∧ mentions "Use" "Module.arguments was removed, there is no replacement." = false
  ∧ named_on_read Module_arguments = None
  ∧ named_on_write Module_arguments = None.
Proof. split_and!; vm_compute; reflexivity. Qed.

(** ** Evaluations of [integrate] and [remove] *)



Lemma Chunk_remove_keeps_owning_groups_witness :
  ∃ st', Chunk_remove graph_scenario 2 = Some st'
    ∧ Chunk_isEmpty st' 2 = true
    ∧ (∀ m, Chunk_containsModule graph_scenario 2 m = true →
            Module_isInChunk st' m 2 = false)
    ∧ _groups (getChunk st' 2) = _groups (getChunk graph_scenario 2)
    ∧ (∀ g, Chunk_isInGroup graph_scenario 2 g = true →
            Chunk_isInGroup st' 2 g = true).
Proof.
  apply (Chunk_remove_keeps_owning_groups graph_scenario 2).
  intros m Hm%set_has_true.
  change (_modules (getChunk graph_scenario 2)) with [11; 12] in Hm.
  apply elem_of_cons in Hm as [-> | Hm]; [vm_compute; reflexivity |].
  apply list_elem_of_singleton in Hm as ->. vm_compute; reflexivity.
Defined.

(** C10 as stated fails where a member module does not list the chunk: in
    [graph_one_sided] chunk 1 has an owning group, and after [remove()] it
    still holds module 10, whose [removeChunk] found nothing to delete. *)
Lemma Chunk_remove_leaves_one_sided_member :
  ∃ st', Chunk_remove graph_one_sided 1 = Some st'
    ∧ Chunk_isInGroup graph_one_sided 1 3 = true
    ∧ Chunk_containsModule graph_one_sided 1 10 = true
    ∧ Module_isInChunk graph_one_sided 10 1 = false
    ∧ Chunk_isEmpty st' 1 = false
    ∧ Chunk_containsModule st' 1 10 = true.
Proof. eexists. split_and!; vm_compute; reflexivity. Qed.

(** * Further properties of the code *)

(** ** [canBeIntegrated] and [isAvailable] *)

(** X1.  [a.canBeIntegrated(b)] and [b.canBeIntegrated(a)] give the same
    answer: when the chunks differ in initiality both calls run
    [isAvailable] with the initial chunk first, and otherwise both test the
    two entry modules. *)
Theorem Chunk_canBeIntegrated_symmetric st a b :
  Chunk_canBeIntegrated st a b = Chunk_canBeIntegrated st b a.
Proof.
  unfold Chunk_canBeIntegrated.
  destruct (Chunk_isInitial st a), (Chunk_isInitial st b); simpl; try done.
  - by rewrite orb_comm.
  - by rewrite orb_comm.
Qed.

Section queue_reachability.
Variable body : nat → Step.

(** What the body enqueues when it visits [x]. *)
Definition enqueues (x y : nat) : Prop := ∃ ys, body x = Next ys ∧ y ∈ ys.

(** A returned value comes from a visited element, and each visited element
    is in the start queue or was enqueued from a visited one. *)
Lemma for_of_queue_returned (P : nat → Prop) fuel queue i b :
  (∀ x y, P x → enqueues x y → P y) →
  (∀ x, x ∈ queue → P x) →
  for_of_queue body fuel queue i = Some (Some b) →
  ∃ x, P x ∧ body x = Return b.
Proof.
  intros Hclosed. revert queue i.
  induction fuel as [| fuel IH]; intros queue i Hq; simpl; [done |].
  destruct (queue !! i) as [x |] eqn:Hx; [| done].
  assert (P x) by (apply Hq; by eapply list_elem_of_lookup_2).
  destruct (body x) as [ys | b'] eqn:Hb.
  - apply IH. intros y [Hy | Hy]%elem_of_set_add_all; [| by apply Hq].
    apply (Hclosed x y); [done |]. by exists ys.
  - intros [= <-]. by exists x.
Qed.

(** When the loop runs to its end, the queue it ends with extends the start
    queue, the body returned on none of its elements, and it holds whatever
    they enqueue. *)
Lemma for_of_queue_completed fuel queue i :
  (∀ j x, j < i → queue !! j = Some x →
          ∃ ys, body x = Next ys ∧ ∀ y, y ∈ ys → y ∈ queue) →
  for_of_queue body fuel queue i = Some None →
  ∃ final : list nat, (∀ x, x ∈ queue → x ∈ final)
    ∧ (∀ x, x ∈ final → ∃ ys, body x = Next ys ∧ ∀ y, y ∈ ys → y ∈ final).
Proof.
  revert queue i.
  induction fuel as [| fuel IH]; intros queue i Hdone; simpl; [done |].
  destruct (queue !! i) as [x |] eqn:Hx.
  - destruct (body x) as [ys | b] eqn:Hb; [| done].
    intros Hrun. pose proof (set_add_all_prefix ys queue) as Hpre.
    destruct (IH (set_add_all ys queue) (S i)) as (final & Hsub & Hclosed);
      [| done |].
    + intros j z Hj Hz.
      destruct (decide (j = i)) as [-> | Hne].
      * assert (queue !! i = Some z) as Hz'.
        { destruct (queue !! i) as [z' |] eqn:E; [| done].
          by rewrite (prefix_lookup_Some _ _ _ _ E Hpre) in Hz. }
        rewrite Hx in Hz'. injection Hz' as <-.
        exists ys. split; [done |]. intros y Hy.
        apply elem_of_set_add_all. by left.
      * assert (j < i) as Hlt by lia.
        assert (queue !! j = Some z) as Hz'.
        { destruct (queue !! j) as [z' |] eqn:E.
          - by rewrite (prefix_lookup_Some _ _ _ _ E Hpre) in Hz.
          - apply lookup_ge_None in E. apply lookup_lt_Some in Hx. lia. }
        destruct (Hdone j z Hlt Hz') as (zs & Hzs & Hin).
        exists zs. split; [done |]. intros y Hy.
        apply elem_of_set_add_all. right. by apply Hin.
    + exists final. split; [| done].
      intros y Hy. apply Hsub, elem_of_set_add_all. by right.
  - intros _. exists queue. split; [done |].
    intros x [j Hj]%list_elem_of_lookup.
    apply lookup_ge_None in Hx. pose proof (lookup_lt_Some _ _ _ Hj).
    apply (Hdone j x); [lia | done].
Qed.
End queue_reachability.

(** A path to an initial group that avoids [a] is found by [isAvailable]. *)
Lemma isAvailable_body_returns st a g b :
  isAvailable_body st a g = Return b →
  b = false ∧ Chunk_isInGroup st a g = false ∧ ChunkGroup_isInitial st g = true.
Proof.
  unfold isAvailable_body.
  destruct (Chunk_isInGroup st a g); [done |].
  destruct (ChunkGroup_isInitial st g); [| done].
  by intros [= <-].
Qed.

Lemma isAvailable_body_next st a g ys p :
  isAvailable_body st a g = Next ys → p ∈ ys →
  Chunk_isInGroup st a g = false ∧ ChunkGroup_isInitial st g = false
  ∧ p ∈ parentsIterable (getChunkGroup st g).
Proof.
  unfold isAvailable_body.
  destruct (Chunk_isInGroup st a g).
  - intros [= <-] Hp. by apply elem_of_nil in Hp.
  - destruct (ChunkGroup_isInitial st g); [done |]. by intros [= <-] Hp.
Qed.

(** X2.  [isAvailable(a, b)] is false exactly when, from one of the groups
    that own [b], an initial group can be reached along parent links through
    groups none of which owns [a]; otherwise it is true. *)
Theorem isAvailable_false_iff_reaches_initial st a b :
  (isAvailable st a b = Some false
   ↔ ∃ g, g ∈ _groups (getChunk st b) ∧ reaches_initial_avoiding st a g)
  ∧ (isAvailable st a b = Some true
     ↔ ¬ ∃ g, g ∈ _groups (getChunk st b) ∧ reaches_initial_avoiding st a g).
Proof.
  assert (Hfalse : isAvailable st a b = Some false
    ↔ ∃ g, g ∈ _groups (getChunk st b) ∧ reaches_initial_avoiding st a g).
  { unfold isAvailable. split.
    - intros Hrun.
      destruct (for_of_queue _ _ _ _) as [[r |] |] eqn:Hloop; simpl in Hrun;
        try done.
      injection Hrun as ->.
      apply (for_of_queue_returned (isAvailable_body st a)
               (λ x, reaches_initial_avoiding st a x →
                     ∃ g, g ∈ _groups (getChunk st b)
                          ∧ reaches_initial_avoiding st a g)) in Hloop.
      + destruct Hloop as (x & Hx & (_ & Hin & Hinit)%isAvailable_body_returns).
        apply Hx. by apply reaches_here.
      + intros x y Hx (ys & Hys & Hy) Hreach.
        destruct (isAvailable_body_next st a x ys y Hys Hy) as (Hin & Hinit & Hp).
        apply Hx. by apply (reaches_parent st a x y).
      + intros x Hx Hreach. rewrite elem_of_set_of in Hx. exists x. by split.
    - intros (g & Hg & Hreach).
      destruct (isAvailable_total st a b) as [r Hr]. unfold isAvailable in Hr.
      rewrite Hr. destruct r; [exfalso | done].
      destruct (for_of_queue _ _ _ _) as [[r |] |] eqn:Hloop; simpl in Hr;
        try done.
      + injection Hr as ->.
        apply (for_of_queue_returned _ (λ _, True)) in Hloop; [| done | done].
        by destruct Hloop as (x & _ & (? & _)%isAvailable_body_returns).
      + apply for_of_queue_completed in Hloop as (final & Hsub & Hclosed);
          [| intros j x Hj; lia].
        assert (Hgf : g ∈ final) by (apply Hsub; by rewrite elem_of_set_of).
        clear Hg Hsub Hr.
        induction Hreach as [g Hin Hinit | g p Hin Hinit Hp Hreach IH].
        * destruct (Hclosed g Hgf) as (ys & Hys & _).
          unfold isAvailable_body in Hys. by rewrite Hin, Hinit in Hys.
        * destruct (Hclosed g Hgf) as (ys & Hys & Hall).
          apply IH, Hall.
          unfold isAvailable_body in Hys. rewrite Hin, Hinit in Hys.
          by injection Hys as <-. }
  split; [done |].
  rewrite <- Hfalse.
  destruct (isAvailable_total st a b) as [[|] ->]; split; done.
Qed.

(** ** [isAccessibleInChunkGroup], [isAccessibleInChunk], [hasReasonForChunk] *)

Lemma isAccessibleInChunkGroup_closed_form st m g ignore :
  Module_isAccessibleInChunkGroup st m g ignore
  = Some (negb (ChunkGroup_isInitial st g) || group_has_module st m ignore g).
Proof.
  destruct (ChunkGroup_isInitial st g) eqn:Hinit; simpl.
  - unfold Module_isAccessibleInChunkGroup, traversal_fuel.
    change (set_of [g]) with [g]. simpl.
    unfold isAccessibleInChunkGroup_body at 1. fold (group_has_module st m ignore g).
    rewrite Hinit. by destruct (group_has_module st m ignore g).
  - by apply Module_isAccessibleInChunkGroup_not_initial.
Qed.

(** X3.  [isAccessibleInChunkGroup(chunkGroup, ignoreChunk)] looks at the
    group it is called on and at no ancestor: it returns true when that
    group is not initial, and otherwise exactly when one of the group's own
    chunks other than [ignoreChunk] contains the module. *)
Theorem Module_isAccessibleInChunkGroup_start_group_only st m g ignore :
  Module_isAccessibleInChunkGroup st m g ignore
  = Some (negb (ChunkGroup_isInitial st g)
          || existsb (λ chunk, negb (bool_decide (Some chunk = ignore))
                               && Chunk_containsModule st chunk m)
                     (chunks (getChunkGroup st g))).
Proof. apply isAccessibleInChunkGroup_closed_form. Qed.

Lemma isAccessibleInChunk_loop st m gs : ∀ acc,
  for_each (λ acc chunkGroup,
              if acc : bool then Module_isAccessibleInChunkGroup st m chunkGroup None
              else Some false) acc gs
  = Some (acc && forallb (λ g, negb (ChunkGroup_isInitial st g)
                               || group_has_module st m None g) gs).
Proof.
  induction gs as [| g gs IH]; intros acc; simpl.
  - by rewrite andb_true_r.
  - destruct acc; simpl.
    + rewrite isAccessibleInChunkGroup_closed_form. simpl. by rewrite IH.
    + by rewrite IH.
Qed.

(** X4.  [isAccessibleInChunk(chunk, ignoreChunk)] does not use
    [ignoreChunk]: it is true exactly when every group that owns [chunk] is
    not initial or has, among its own chunks, one that contains the module. *)
Theorem Module_isAccessibleInChunk_all_groups st m c ignore :
  Module_isAccessibleInChunk st m c ignore
  = Some (forallb (λ g, negb (ChunkGroup_isInitial st g)
                        || existsb (λ chunk, Chunk_containsModule st chunk m)
                                   (chunks (getChunkGroup st g)))
                  (_groups (getChunk st c))).
Proof.
  unfold Module_isAccessibleInChunk. rewrite isAccessibleInChunk_loop. simpl.
  reflexivity.
Qed.

Lemma hasReasonForChunk_chunks_any st m c1 c2 cs :
  hasReasonForChunk_chunks st m c1 cs = hasReasonForChunk_chunks st m c2 cs.
Proof. induction cs as [| c cs IH]; simpl; [done |]. by rewrite IH. Qed.

(** X5.  The answer of [hasReasonForChunk(chunk)] is the same for every
    [chunk]: the chunk is only handed to [isAccessibleInChunk], which does
    not pass it on. *)
Theorem Module_hasReasonForChunk_any_chunk st reasons m c1 c2 :
  Module_hasReasonForChunk st reasons m c1 = Module_hasReasonForChunk st reasons m c2.
Proof.
  induction reasons as [| r rs IH]; simpl; [done |].
  destruct (module r); [| done].
  by rewrite (hasReasonForChunk_chunks_any st m c1 c2), IH.
Qed.

(** ** Edge symmetry *)

Local Set Warnings "-clear-no-such-hyp".

Lemma Module_removeChunk_symmetric st m c st' b :
  edge_symmetric st → Module_removeChunk st m c = Some (st', b) →
  edge_symmetric st'.
Proof.
  intros Hsym Hrun.
  destruct (Module_removeChunk_effect st m c)
    as (st1 & b1 & Hrun1 & Hchunks & Hmods & _).
  rewrite Hrun in Hrun1. injection Hrun1 as <- <-.
  intros c' m'. rewrite Hchunks, Hmods. clear Hchunks Hmods Hrun.
  pose proof (Hsym c m). pose proof (Hsym c' m').
  pose proof (Hsym c m'). pose proof (Hsym c' m).
  destruct (decide (m = m')) as [<- |];
    destruct (decide (c = c' ∧ c ∈ _chunks (getModule st m))) as [[<- Hin] | Hno];
    rewrite ?elem_of_set_delete; naive_solver.
Qed.

Lemma Chunk_removeModule_symmetric st c m st' b :
  edge_symmetric st → Chunk_removeModule st c m = Some (st', b) →
  edge_symmetric st'.
Proof.
  intros Hsym Hrun.
  destruct (Chunk_removeModule_effect st c m)
    as (st1 & b1 & Hrun1 & Hmods & Hchunks & _).
  rewrite Hrun in Hrun1. injection Hrun1 as <- <-.
  intros c' m'. rewrite Hchunks, Hmods. clear Hchunks Hmods Hrun.
  pose proof (Hsym c m). pose proof (Hsym c' m').
  pose proof (Hsym c m'). pose proof (Hsym c' m).
  destruct (decide (c = c')) as [<- |];
    destruct (decide (m = m' ∧ m ∈ _modules (getChunk st c))) as [[<- Hin] | Hno];
    rewrite ?elem_of_set_delete; naive_solver.
Qed.

(** X6.  [Chunk.removeModule] and [Module.removeChunk] keep the graph's
    edges symmetric: if before the call every module-chunk edge is recorded
    on both sides, so it is afterwards, whichever of the two is called and
    whether or not the edge was there. *)
Theorem remove_edge_keeps_symmetry st c m :
  edge_symmetric st →
  (∀ st' b, Chunk_removeModule st c m = Some (st', b) → edge_symmetric st')
  ∧ (∀ st' b, Module_removeChunk st m c = Some (st', b) → edge_symmetric st').
Proof.
  intros Hsym. split; intros st' b Hrun.
  - by apply (Chunk_removeModule_symmetric st c m st' b).
  - by apply (Module_removeChunk_symmetric st m c st' b).
Qed.

(** X7.  Where the edge between a chunk and a module is recorded on both
    sides or on neither, [chunk.removeModule(module)] and
    [module.removeChunk(chunk)] return the same value and leave the same
    store; the value is true exactly when the edge was there. *)
Theorem removeModule_removeChunk_agree st c m :
  (m ∈ _modules (getChunk st c) ↔ c ∈ _chunks (getModule st m)) →
  Chunk_removeModule st c m = Module_removeChunk st m c
  ∧ ∃ st', Chunk_removeModule st c m
           = Some (st', Chunk_containsModule st c m).
Proof.
  intros Hedge. unfold Chunk_removeModule, Module_removeChunk.
  rewrite Chunk_removeModule_rec_eq, Module_removeChunk_rec_eq by lia.
  unfold Chunk_containsModule.
  destruct (set_has m (_modules (getChunk st c))) eqn:Hm.
  - apply set_has_true in Hm.
    rewrite (proj2 (set_has_true c _)) by tauto. split; [done | by eexists].
  - apply set_has_false in Hm.
    rewrite (proj2 (set_has_false c _)) by tauto. split; [done | by eexists].
Qed.

(** X8.  After [chunk.removeModule(module)] the chunk does not contain the
    module, and removing it once more returns false and leaves the store as
    it is. *)
Theorem Chunk_removeModule_twice st c m st' b :
  Chunk_removeModule st c m = Some (st', b) →
  Chunk_containsModule st' c m = false
  ∧ Chunk_removeModule st' c m = Some (st', false).
Proof.
  intros Hrun.
  destruct (Chunk_removeModule_effect st c m) as (st1 & b1 & Hrun1 & Hmods & _).
  rewrite Hrun in Hrun1. injection Hrun1 as <- <-.
  assert (Hgone : set_has m (_modules (getChunk st' c)) = false).
  { rewrite Hmods, decide_True by done. apply set_has_delete. }
  split; [done |].
  unfold Chunk_removeModule. rewrite Chunk_removeModule_rec_eq by lia.
  by rewrite Hgone.
Qed.

(** [Chunk.remove] keeps the edges symmetric: its module loop does by
    [Module_removeChunk_symmetric], and its group loop touches no edge. *)
Lemma remove_modules_loop_symmetric c ms : ∀ st st',
  edge_symmetric st →
  for_each (λ st module,
              '(st', _) ← Module_removeChunk st module c; Some st') st ms
  = Some st' →
  edge_symmetric st'.
Proof.
  induction ms as [| m ms IH]; intros st st' Hsym; simpl.
  - by intros [= <-].
  - destruct (Module_removeChunk st m c) as [[st1 b] |] eqn:Hrun; simpl; [| done].
    apply IH. by apply (Module_removeChunk_symmetric st m c st1 b).
Qed.

(** X9.  [Chunk.remove] keeps the graph's edges symmetric and leaves no
    edge at the chunk: in a graph with symmetric edges, after [c.remove()]
    the edges are symmetric, [c] has no module and no module lists [c]. *)
Theorem Chunk_remove_keeps_symmetry st c :
  edge_symmetric st →
  ∃ st', Chunk_remove st c = Some st'
    ∧ edge_symmetric st'
    ∧ _modules (getChunk st' c) = []
    ∧ (∀ m, Module_isInChunk st' m c = false).
Proof.
  intros Hsym.
  destruct (remove_modules_loop c (_modules (getChunk st c)) st)
    as (st1 & Hloop & Hleft & _).
  pose proof (remove_modules_loop_symmetric c _ st st1 Hsym Hloop) as Hsym1.
  unfold Chunk_remove. rewrite Hloop. simpl.
  destruct (remove_groups_loop c (_groups (getChunk st1 c)) st1) as [Hc Hm].
  eexists. split; [done |].
  assert (Hempty : _modules (getChunk st1 c) = []).
  { destruct (_modules (getChunk st1 c)) as [| x l] eqn:E; [done |].
    destruct (Hleft x) as [Hx [Hno | Hno]]; [left | done |].
    exfalso. by apply Hno, Hsym. }
  split_and!.
  - intros c' m'. rewrite Hc, Hm. apply Hsym1.
  - by rewrite Hc.
  - intros m. unfold Module_isInChunk. rewrite Hm. apply set_has_false.
    rewrite <- (Hsym1 c m), Hempty. apply not_elem_of_nil.
Qed.

(** ** What [integrate] leaves behind *)

Lemma with_modules_id o : with_modules o (_modules o) = o.
Proof. by destruct o. Qed.

Lemma set_add_present x s : x ∈ s → set_add x s = s.
Proof. intros H. unfold set_add. by rewrite (proj2 (set_has_true x s)). Qed.

Lemma set_delete_twice x s : set_delete x (set_delete x s) = set_delete x s.
Proof. apply set_delete_absent. rewrite elem_of_set_delete. tauto. Qed.

(** Removing an edge changes the two sets of the edge and nothing else. *)
Lemma Chunk_removeModule_payload st c m st' b :
  Chunk_removeModule st c m = Some (st', b) →
  (∀ x, size (getModule st' x) = size (getModule st x))
  ∧ (∀ x, entryModule (getChunk st' x) = entryModule (getChunk st x)).
Proof.
  unfold Chunk_removeModule. rewrite Chunk_removeModule_rec_eq by lia.
  destruct (set_has m (_modules (getChunk st c)));
    [destruct (set_has c (_chunks (getModule st m))) |];
    intros [= <- <-]; split; intros x;
    rewrite ?getModule_setModule, ?getModule_setChunk, ?getChunk_setModule,
      ?getChunk_setChunk;
    repeat (destruct (decide _) as [<- |]); done.
Qed.

Lemma Module_removeChunk_payload st m c st' b :
  Module_removeChunk st m c = Some (st', b) →
  (∀ x, size (getModule st' x) = size (getModule st x))
  ∧ (∀ x, entryModule (getChunk st' x) = entryModule (getChunk st x)).
Proof.
  unfold Module_removeChunk. rewrite Module_removeChunk_rec_eq by lia.
  destruct (set_has c (_chunks (getModule st m)));
    [destruct (set_has m (_modules (getChunk st c))) |];
    intros [= <- <-]; split; intros x;
    rewrite ?getChunk_setChunk, ?getChunk_setModule, ?getModule_setChunk,
      ?getModule_setModule;
    repeat (destruct (decide _) as [<- |]); done.
Qed.

(** [moveModule] in full, on the side of the chunks. *)
Lemma Chunk_moveModule_result st this m other :
  ∃ st', Chunk_moveModule st this m other = Some st'
    ∧ (∀ c, _modules (getChunk st' c)
            = let left := if decide (this = c)
                          then set_delete m (_modules (getChunk st this))
                          else _modules (getChunk st c) in
              if decide (other = c) then set_add m left else left)
    ∧ (∀ x, size (getModule st' x) = size (getModule st x))
    ∧ (∀ c, entryModule (getChunk st' c) = entryModule (getChunk st c)).
Proof.
  unfold Chunk_moveModule, GraphHelpers_disconnectChunkAndModule.
  destruct (Chunk_removeModule_effect st this m)
    as (st1 & b1 & Hrun1 & Hmods1 & _).
  destruct (Chunk_removeModule_payload st this m st1 b1 Hrun1) as [Hsize1 Hentry1].
  destruct (Module_removeChunk_effect st1 m this)
    as (st2 & b2 & Hrun2 & _ & Hmods2 & _).
  destruct (Module_removeChunk_payload st1 m this st2 b2 Hrun2) as [Hsize2 Hentry2].
  rewrite Hrun1. simpl. rewrite Hrun2. simpl. eexists. split; [done |].
  assert (Hleft : ∀ c, _modules (getChunk st2 c)
                       = if decide (this = c)
                         then set_delete m (_modules (getChunk st this))
                         else _modules (getChunk st c)).
  { intros c. rewrite Hmods2.
    destruct (decide (this = c ∧ this ∈ _chunks (getModule st1 m))) as [[<- _] | Hno].
    - rewrite Hmods1, !decide_True by done. apply set_delete_twice.
    - by rewrite Hmods1. }
  unfold GraphHelpers_connectChunkAndModule.
  set (st3 := (Module_addChunk st2 m other).1).
  assert (Hc3 : ∀ c, getChunk st3 c = getChunk st2 c).
  { intros c. unfold st3, Module_addChunk. by case_match. }
  assert (Hm3 : ∀ x, size (getModule st3 x) = size (getModule st2 x)).
  { intros x. unfold st3, Module_addChunk.
    destruct (set_has other (_chunks (getModule st2 m))); simpl; [done |].
    rewrite getModule_setModule. by destruct (decide (m = x)) as [<- |]. }
  unfold Chunk_addModule.
  destruct (set_has m (_modules (getChunk st3 other))) eqn:Hhas; simpl.
  - apply set_has_true in Hhas. rewrite Hc3 in Hhas. split_and!.
    + intros c. rewrite Hc3. simpl.
      destruct (decide (other = c)) as [<- |]; [| apply Hleft].
      rewrite <- Hleft. by rewrite set_add_present.
    + intros x. by rewrite Hm3, Hsize2, Hsize1.
    + intros c. by rewrite Hc3, Hentry2, Hentry1.
  - split_and!.
    + intros c. rewrite getChunk_setChunk. simpl.
      destruct (decide (other = c)) as [<- |]; simpl; by rewrite Hc3, ?Hleft.
    + intros x. by rewrite getModule_setChunk, Hm3, Hsize2, Hsize1.
    + intros c. rewrite getChunk_setChunk.
      destruct (decide (other = c)) as [<- |]; simpl;
        by rewrite Hc3, Hentry2, Hentry1.
Qed.



(** One iteration of the group loop of [integrate] in full, apart from the
    member chunks of the groups. *)
Lemma integrate_group_step_result a b st g :
  let st' := integrate_group_step a b st g in
  (∀ x, getModule st' x = getModule st x)
  ∧ _groups (getChunk st' a) = set_add g (_groups (getChunk st a))
  ∧ (∀ c, entryModule (getChunk st' c) = entryModule (getChunk st c))
  ∧ (∀ x, ChunkGroup_isInitial st' x = ChunkGroup_isInitial st x).
Proof.
  unfold integrate_group_step.
  destruct (ChunkGroup_replaceChunk_effect st g b a) as (Hc & _).
  assert (Hm : ∀ x, getModule (ChunkGroup_replaceChunk st g b a) x = getModule st x).
  { intros x. unfold ChunkGroup_replaceChunk. by case_match. }
  assert (Hi : ∀ x, ChunkGroup_isInitial (ChunkGroup_replaceChunk st g b a) x
                    = ChunkGroup_isInitial st x).
  { intros x. unfold ChunkGroup_isInitial, ChunkGroup_replaceChunk.
    case_match; [| done]. rewrite getChunkGroup_setChunkGroup.
    by destruct (decide (g = x)) as [<- |]. }
  set (st1 := ChunkGroup_replaceChunk st g b a) in *.
  unfold Chunk_addGroup.
  destruct (set_has g (_groups (getChunk st1 a))) eqn:Hg; simpl.
  - apply set_has_true in Hg. split_and!; try done.
    + by rewrite set_add_present, Hc by (by rewrite <- Hc).
    + intros c. by rewrite Hc.
  - split_and!; try done.
    + rewrite getChunk_setChunk_eq. simpl. by rewrite Hc.
    + intros c. rewrite getChunk_setChunk.
      destruct (decide (a = c)) as [<- |]; simpl; by rewrite Hc.
Qed.

Lemma integrate_groups_loop_result a b gs : ∀ st,
  let st' := foldl (integrate_group_step a b) st gs in
  (∀ x, getModule st' x = getModule st x)
  ∧ _groups (getChunk st' a) = set_add_all gs (_groups (getChunk st a))
  ∧ (∀ c, entryModule (getChunk st' c) = entryModule (getChunk st c))
  ∧ (∀ x, ChunkGroup_isInitial st' x = ChunkGroup_isInitial st x).
Proof.
  induction gs as [| g gs IH]; intros st; simpl; [done |].
  destruct (integrate_group_step_result a b st g) as (Hm & Hg & He & Hi).
  destruct (IH (integrate_group_step a b st g)) as (Hm' & Hg' & He' & Hi').
  split_and!.
  - intros x. by rewrite Hm'.
  - by rewrite Hg', Hg.
  - intros c. by rewrite He'.
  - intros x. by rewrite Hi'.
Qed.










(** [GraphHelpers.connectChunkAndModule] on both sides of the edge. *)
Lemma connectChunkAndModule_effect st c m :
  let st' := GraphHelpers_connectChunkAndModule st c m in
  (∀ c', _modules (getChunk st' c')
         = if decide (c = c') then set_add m (_modules (getChunk st c))
           else _modules (getChunk st c'))
  ∧ (∀ m', _chunks (getModule st' m')
           = if decide (m = m') then set_add c (_chunks (getModule st m))
             else _chunks (getModule st m')).
Proof.
  unfold GraphHelpers_connectChunkAndModule, Module_addChunk, Chunk_addModule.
  destruct (set_has c (_chunks (getModule st m))) eqn:Hc; simpl.
  - apply set_has_true in Hc.
    destruct (set_has m (_modules (getChunk st c))) eqn:Hm; simpl.
    + apply set_has_true in Hm. split; intros x.
      * destruct (decide (c = x)) as [<- |]; [by rewrite set_add_present | done].
      * destruct (decide (m = x)) as [<- |]; [by rewrite set_add_present | done].
    + split; intros x.
      * rewrite getChunk_setChunk. by destruct (decide (c = x)) as [<- |].
      * rewrite getModule_setChunk.
        destruct (decide (m = x)) as [<- |]; [by rewrite set_add_present | done].
  - rewrite getChunk_setModule.
    destruct (set_has m (_modules (getChunk st c))) eqn:Hm; simpl.
    + apply set_has_true in Hm. split; intros x.
      * rewrite getChunk_setModule.
        destruct (decide (c = x)) as [<- |]; [by rewrite set_add_present | done].
      * rewrite getModule_setModule. by destruct (decide (m = x)) as [<- |].
    + split; intros x.
      * rewrite getChunk_setChunk, getChunk_setModule.
        by destruct (decide (c = x)) as [<- |].
      * rewrite getModule_setChunk, getModule_setModule.
        by destruct (decide (m = x)) as [<- |].
Qed.

Lemma connectChunkAndModule_symmetric st c m :
  edge_symmetric st → edge_symmetric (GraphHelpers_connectChunkAndModule st c m).
Proof.
  intros Hsym. destruct (connectChunkAndModule_effect st c m) as [Hmods Hchunks].
  intros c' m'. rewrite Hmods, Hchunks.
  pose proof (Hsym c' m'). pose proof (Hsym c m'). pose proof (Hsym c' m).
  destruct (decide (c = c')) as [<- |]; destruct (decide (m = m')) as [<- |];
    rewrite ?elem_of_set_add; naive_solver.
Qed.

Lemma Chunk_moveModule_symmetric st this m other st' :
  edge_symmetric st → Chunk_moveModule st this m other = Some st' →
  edge_symmetric st'.
Proof.
  intros Hsym. unfold Chunk_moveModule, GraphHelpers_disconnectChunkAndModule.
  destruct (Chunk_removeModule st this m) as [[st1 b1] |] eqn:H1; simpl; [| done].
  destruct (Module_removeChunk st1 m this) as [[st2 b2] |] eqn:H2; simpl; [| done].
  intros [= <-]. apply connectChunkAndModule_symmetric.
  apply (Module_removeChunk_symmetric st1 m this st2 b2); [| done].
  by apply (Chunk_removeModule_symmetric st this m st1 b1).
Qed.

(** The module loop of [integrate] keeps the edges symmetric and removes
    from the other chunk the modules it runs over. *)
Lemma integrate_modules_loop_symmetric a b ms : a ≠ b → ∀ st st',
  edge_symmetric st →
  for_each (λ st module, Chunk_moveModule st b module a) st ms = Some st' →
  edge_symmetric st'
  ∧ (∀ x, x ∈ _modules (getChunk st' b) →
          x ∈ _modules (getChunk st b) ∧ x ∉ ms).
Proof.
  intros Hne. induction ms as [| m ms IH]; intros st st' Hsym; simpl.
  - intros [= <-]. split; [done |]. intros x Hx. split; [done |].
    apply not_elem_of_nil.
  - destruct (Chunk_moveModule_result st b m a) as (st1 & Hrun & Hmods & _).
    rewrite Hrun. simpl. intros Hloop.
    destruct (IH st1 st' (Chunk_moveModule_symmetric st b m a st1 Hsym Hrun) Hloop)
      as [Hsym' Hleft].
    split; [done |]. intros x Hx. apply Hleft in Hx as [Hx Hms].
    rewrite Hmods in Hx. simpl in Hx.
    destruct (decide (b = b)); [| done].
    destruct (decide (a = b)); [congruence |].
    apply elem_of_set_delete in Hx as [Hx Hxm].
    split; [done |]. rewrite not_elem_of_cons. tauto.
Qed.

(** X12.  [integrate] keeps the graph's edges symmetric: if every
    module-chunk edge is recorded on both sides before a successful
    [a.integrate(b)] of distinct chunks, so it is afterwards. *)
Theorem Chunk_integrate_keeps_symmetry st a b st' :
  a ≠ b →
  edge_symmetric st →
  Chunk_integrate st a b = Some (st', true) →
  edge_symmetric st'.
Proof.
  intros Hne Hsym Hrun. unfold Chunk_integrate in Hrun.
  destruct (Chunk_canBeIntegrated st a b) as [[|] |]; simpl in Hrun; try done.
  destruct (for_each _ st (_modules (getChunk st b))) as [st1 |] eqn:Hloop;
    simpl in Hrun; [| done].
  destruct (integrate_modules_loop_symmetric a b _ Hne st st1 Hsym Hloop)
    as [Hsym1 Hleft].
  assert (Hempty : _modules (getChunk st1 b) = []).
  { destruct (_modules (getChunk st1 b)) as [| x l] eqn:E; [done |].
    destruct (Hleft x) as [Hx Hno]; [left | done]. }
  set (st2 := setChunk st1 b (with_modules (getChunk st1 b) [])) in *.
  destruct (integrate_groups_loop a b (_groups (getChunk st2 b)) st2)
    as (Hm3 & _).
  destruct (integrate_groups_loop_result a b (_groups (getChunk st2 b)) st2)
    as (Hmod3 & _).
  set (st3 := foldl (integrate_group_step a b) st2 (_groups (getChunk st2 b))) in *.
  injection Hrun as <-.
  assert (Hmods : ∀ c, _modules (getChunk st2 c) = _modules (getChunk st1 c)).
  { intros c. unfold st2. rewrite getChunk_setChunk.
    destruct (decide (b = c)) as [<- |]; simpl; by rewrite ?Hempty. }
  set (st4 := setChunk st3 b (with_groups (getChunk st3 b) [])).
  set (st5 := setChunk st4 a _).
  intros c m.
  assert (getModule st5 m = getModule st1 m) as ->.
  { transitivity (getModule st3 m); [done | by rewrite Hmod3]. }
  assert (_modules (getChunk st5 c) = _modules (getChunk st1 c)) as ->.
  { rewrite <- Hmods, <- Hm3. unfold st5, st4. rewrite !getChunk_setChunk.
    repeat (destruct (decide _) as [? | ?]); subst; simpl; try done;
      congruence. }
  apply Hsym1.
Qed.

Lemma graph_scenario_symmetric : edge_symmetric graph_scenario.
Proof.
  intros c m. unfold getChunk, getModule, graph_scenario; simpl.
  rewrite !lookup_insert, !lookup_empty.
  repeat (destruct (decide _) as [<- |]; simpl);
    rewrite ?elem_of_cons, ?elem_of_nil; naive_solver.
Qed.

Lemma Chunk_integrate_keeps_symmetry_witness :
  ∃ st', Chunk_integrate graph_scenario 1 2 = Some (st', true)
    ∧ edge_symmetric st'.
Proof.
  eexists. split; [vm_compute; reflexivity |].
  apply (Chunk_integrate_keeps_symmetry graph_scenario 1 2).
  - lia.
  - apply graph_scenario_symmetric.
  - vm_compute; reflexivity.
Defined.

(** ** [isUsed] *)

Lemma indexOf_ge_minus_one x l : (-1 ≤ indexOf x l)%Z.
Proof.
  induction l as [| y l IH]; simpl; [lia |].
  destruct (String.eqb y x); [lia |].
  destruct (indexOf x l <? 0)%Z eqn:E; [lia |]. apply Z.ltb_ge in E. lia.
Qed.

Lemma indexOf_found x l :
  (0 ≤ indexOf x l)%Z → l !! Z.to_nat (indexOf x l) = Some x.
Proof.
  induction l as [| y l IH]; simpl; [lia |].
  destruct (String.eqb y x) eqn:Hy.
  - apply String.eqb_eq in Hy as ->. done.
  - destruct (indexOf x l <? 0)%Z eqn:E; [lia |].
    apply Z.ltb_ge in E. intros _.
    rewrite Z2Nat.inj_add, Nat.add_1_r by lia. simpl. by apply IH.
Qed.

Lemma indexOf_absent x l : (indexOf x l < 0)%Z ↔ x ∉ l.
Proof.
  induction l as [| y l IH]; simpl.
  - split; [intros _; apply not_elem_of_nil | lia].
  - rewrite not_elem_of_cons. destruct (String.eqb y x) eqn:Hy.
    + apply String.eqb_eq in Hy as ->. split; [lia | tauto].
    + apply String.eqb_neq in Hy.
      destruct (indexOf x l <? 0)%Z eqn:E.
      * apply Z.ltb_lt in E. split; [intros _; split; [congruence | tauto] | lia].
      * apply Z.ltb_ge in E. split; [lia |]. intros [_ Hx%IH]. lia.
Qed.

(** When [isUsed] answers with an identifier, the export is at that position
    of [usedExports]. *)
Lemma Module_isUsed_identifier this e i :
  Module_isUsed this (Some e) = Normal (ResultIdentifier i) →
  ∃ names, usedExports this = ExportsArray names
           ∧ (0 ≤ i)%Z ∧ names !! Z.to_nat i = Some e.
Proof.
  unfold Module_isUsed. destruct e as [| ch e]; [done |].
  destruct (used this) as [| [|]]; try done;
    destruct (usedExports this) as [| [|] | names]; try done.
  destruct (indexOf (String ch e) names <? 0)%Z eqn:E; [done |].
  apply Z.ltb_ge in E. intros Hrun. exists names. split; [done |].
  assert (i = indexOf (String ch e) names) as ->.
  { destruct (Module_isProvided this (String ch e)) as [[[|] |] |]; try done;
      repeat case_match; congruence. }
  split; [done | by apply indexOf_found].
Qed.

(** X13.  The identifiers [isUsed] hands out do not collide: if it answers
    two export names of one module with [Template.numberToIdentifer] of the
    same index, the names are the same, and that index is the position of
    the name in [usedExports]. *)
Theorem Module_isUsed_identifiers_distinct this e1 e2 i :
  Module_isUsed this (Some e1) = Normal (ResultIdentifier i) →
  Module_isUsed this (Some e2) = Normal (ResultIdentifier i) →
  e1 = e2
  ∧ ∃ names, usedExports this = ExportsArray names
             ∧ names !! Z.to_nat i = Some e1.
Proof.
  intros (names1 & Hn1 & _ & H1)%Module_isUsed_identifier
         (names2 & Hn2 & _ & H2)%Module_isUsed_identifier.
  rewrite Hn1 in Hn2. injection Hn2 as <-.
  split; [congruence | by exists names1].
Qed.

Lemma Module_isUsed_identifiers_distinct_witness :
  "b"%string = "b"%string
  ∧ ∃ names, usedExports module_namespace = ExportsArray names
             ∧ names !! Z.to_nat 0 = Some "b"%string.
Proof.
  apply (Module_isUsed_identifiers_distinct module_namespace "b" "b" 0);
    reflexivity.
Defined.

(** X14.  [isUsed] throws in one situation only: the module is used, the
    export name is not empty and is listed in the array [usedExports], and
    [buildMeta] is undefined, which [isProvided] then reads a field of. *)
Theorem Module_isUsed_throws_iff this exportName :
  (∃ message, Module_isUsed this exportName = Throws message)
  ↔ ∃ e names, exportName = Some e ∧ e ≠ ""%string
               ∧ used this = UsedBool true
               ∧ usedExports this = ExportsArray names ∧ e ∈ names
               ∧ buildMeta this = None.
Proof.
  unfold Module_isUsed, Module_isProvided. split.
  - intros [message Hrun].
    destruct exportName as [[| ch e] |]; try done.
    destruct (used this) as [| [|]]; try done;
      destruct (usedExports this) as [| [|] | names]; try done.
    destruct (indexOf (String ch e) names <? 0)%Z eqn:E; [done |].
    apply Z.ltb_ge in E.
    exists (String ch e), names. split_and!; try done.
    + destruct (decide (String ch e ∈ names)) as [| Hno]; [done |].
      apply indexOf_absent in Hno. lia.
    + destruct (buildMeta this) as [meta |]; [| done].
      destruct (providedExports meta) as [provided |]; simpl in Hrun;
        repeat case_match; done.
  - intros (e & names & -> & He & -> & -> & Hin & ->).
    destruct e as [| ch e]; [done |].
    destruct (indexOf (String ch e) names <? 0)%Z eqn:E.
    + apply Z.ltb_lt, indexOf_absent in E. done.
    + by eexists.
Qed.

(** ** Inclusion reasons *)

(** X15.  [removeReason(module, dependency)] removes the first reason for
    the pair and no other: when it returns true the array was
    [before ++ r :: after] with [r] for the pair and no reason of [before]
    for it, and it is left as [before ++ after]; when it returns false no
    reason is for the pair and the array is unchanged. *)
Theorem Module_removeReason_first_match reasons module0 dependency0 :
  match Module_removeReason reasons module0 dependency0 with
  | (kept, true) =>
      ∃ before r after,
        reasons = before ++ r :: after
        ∧ reason_matches module0 dependency0 r
        ∧ (∀ r', r' ∈ before → ¬ reason_matches module0 dependency0 r')
        ∧ kept = before ++ after
  | (kept, false) =>
      kept = reasons
      ∧ ∀ r, r ∈ reasons → ¬ reason_matches module0 dependency0 r
  end.
Proof.
  induction reasons as [| r rest IH]; simpl.
  - split; [done |]. intros r Hr. by apply elem_of_nil in Hr.
  - destruct (bool_decide (module r = module0)) eqn:Hm;
      [destruct (bool_decide (dependency r = dependency0)) eqn:Hd |]; simpl.
    + apply bool_decide_eq_true in Hm, Hd.
      exists [], r, rest. split_and!; try done.
      intros r' Hr'. by apply elem_of_nil in Hr'.
    + apply bool_decide_eq_false in Hd.
      destruct (Module_removeReason rest module0 dependency0) as [kept [|]].
      * destruct IH as (before & r0 & after & -> & Hr0 & Hbefore & ->).
        exists (r :: before), r0, after. split_and!; try done.
        intros r' [-> | Hr']%elem_of_cons; [| by apply Hbefore].
        intros [_ ?]. done.
      * destruct IH as [-> Hnone]. split; [done |].
        intros r' [-> | Hr']%elem_of_cons; [| by apply Hnone].
        intros [_ ?]. done.
    + apply bool_decide_eq_false in Hm.
      destruct (Module_removeReason rest module0 dependency0) as [kept [|]].
      * destruct IH as (before & r0 & after & -> & Hr0 & Hbefore & ->).
        exists (r :: before), r0, after. split_and!; try done.
        intros r' [-> | Hr']%elem_of_cons; [| by apply Hbefore].
        intros [? _]. done.
      * destruct IH as [-> Hnone]. split; [done |].
        intros r' [-> | Hr']%elem_of_cons; [| by apply Hnone].
        intros [? _]. done.
Qed.

(** X16.  Adding a reason and removing it again gives the array back: when
    no reason of the array is for the pair, [removeReason] after [addReason]
    for that pair returns true and leaves the array as it was before the
    two calls. *)
Theorem Module_addReason_removeReason reasons module0 dependency0 text :
  (∀ r, r ∈ reasons → ¬ reason_matches module0 dependency0 r) →
  Module_removeReason (Module_addReason reasons module0 dependency0 text)
    module0 dependency0
  = (reasons, true).
Proof.
  unfold Module_addReason.
  induction reasons as [| r rest IH]; intros Hnone; simpl.
  - by rewrite !bool_decide_eq_true_2.
  - assert (¬ reason_matches module0 dependency0 r) as Hr by (apply Hnone; left).
    rewrite IH by (intros r' Hr'; apply Hnone; by right).
    destruct (bool_decide (module r = module0)) eqn:Hm;
      [destruct (bool_decide (dependency r = dependency0)) eqn:Hd |]; simpl;
      try done.
    apply bool_decide_eq_true in Hm, Hd. by destruct Hr.
Qed.

Lemma Module_addReason_removeReason_witness :
  Module_removeReason
    (Module_addReason [mkModuleReason (Some 10) (Some 1) "import"]
                      (Some 11) (Some 2) "require")
    (Some 11) (Some 2)
  = ([mkModuleReason (Some 10) (Some 1) "import"], true).
Proof.
  apply (Module_addReason_removeReason
           [mkModuleReason (Some 10) (Some 1) "import"] (Some 11) (Some 2)).
  intros r ->%list_elem_of_singleton [Hm _]. discriminate Hm.
Defined.

(** ** Owning groups *)

(** X17.  [addGroup] and [removeGroup] undo each other: [addGroup] returns
    true exactly when the group did not own the chunk, after it
    [isInGroup] is true; [removeGroup] after it returns true, after which
    [isInGroup] is false and, if the group did not own the chunk at first,
    the chunk's group set is as it was. *)
Theorem Chunk_addGroup_removeGroup st c g :
  let added := Chunk_addGroup st c g in
  let removed := Chunk_removeGroup added.1 c g in
  added.2 = negb (Chunk_isInGroup st c g)
  ∧ Chunk_isInGroup added.1 c g = true
  ∧ removed.2 = true
  ∧ Chunk_isInGroup removed.1 c g = false
  ∧ (Chunk_isInGroup st c g = false →
     _groups (getChunk removed.1 c) = _groups (getChunk st c)).
Proof.
  simpl.
  assert (Hin : Chunk_isInGroup (Chunk_addGroup st c g).1 c g = true).
  { unfold Chunk_isInGroup, Chunk_addGroup.
    destruct (set_has g (_groups (getChunk st c))) eqn:Hg; simpl; [done |].
    rewrite getChunk_setChunk_eq. simpl. apply set_has_true, elem_of_set_add.
    by left. }
  assert (Hgroups : _groups (getChunk (Chunk_addGroup st c g).1 c)
                    = set_add g (_groups (getChunk st c))).
  { unfold Chunk_addGroup.
    destruct (set_has g (_groups (getChunk st c))) eqn:Hg; simpl.
    - apply set_has_true in Hg. by rewrite set_add_present.
    - by rewrite getChunk_setChunk_eq. }
  split_and!; try done.
  - unfold Chunk_addGroup, Chunk_isInGroup.
    by destruct (set_has g (_groups (getChunk st c))).
  - unfold Chunk_removeGroup. unfold Chunk_isInGroup in Hin. by rewrite Hin.
  - unfold Chunk_removeGroup, Chunk_isInGroup in *. rewrite Hin. simpl.
    rewrite getChunk_setChunk_eq. simpl. apply set_has_delete.
  - intros Hout. unfold Chunk_removeGroup, Chunk_isInGroup in *.
    rewrite Hin. simpl. rewrite getChunk_setChunk_eq. simpl.
    rewrite Hgroups. unfold set_add. rewrite Hout.
    apply set_has_false in Hout.
    unfold set_delete. rewrite filter_app.
    rewrite (filter_cons_False _ g []) by (intros H; by apply H).
    rewrite filter_nil, app_nil_r. by apply set_delete_absent.
Qed.

(** ** [hasModuleInGraph] *)

(** The chunks in [chunksProcessed] were looked at without a match, so
    skipping them changes no answer. *)
Lemma hasModuleInGraph_chunks_spec st filterFn filterChunkFn cs : ∀ processed,
  (∀ c, c ∈ processed → chunk_has_match st filterFn filterChunkFn c = false) →
  let r := hasModuleInGraph_chunks st filterFn filterChunkFn processed cs in
  r.2 = existsb (chunk_has_match st filterFn filterChunkFn) cs
  ∧ (r.2 = false →
     ∀ c, c ∈ r.1 → chunk_has_match st filterFn filterChunkFn c = false).
Proof.
  induction cs as [| chunk rest IH]; intros processed Hdone; simpl; [done |].
  destruct (set_has chunk processed) eqn:Hseen; simpl.
  - apply set_has_true in Hseen. rewrite (Hdone chunk Hseen). simpl.
    by apply IH.
  - fold (chunk_has_match st filterFn filterChunkFn chunk).
    destruct (chunk_has_match st filterFn filterChunkFn chunk) eqn:Hmatch;
      simpl; [done |].
    apply IH. intros c [-> | Hc]%elem_of_set_add; [done | by apply Hdone].
Qed.

Lemma hasModuleInGraph_loop_eq st children filterFn filterChunkFn fuel :
  ∀ queue i processed,
  (∀ c, c ∈ processed → chunk_has_match st filterFn filterChunkFn c = false) →
  hasModuleInGraph_loop st children filterFn filterChunkFn fuel queue i processed
  = r ← for_of_queue (hasModuleInGraph_body st children filterFn filterChunkFn)
          fuel queue i;
    Some (default false r).
Proof.
  induction fuel as [| fuel IH]; intros queue i processed Hdone; simpl; [done |].
  destruct (queue !! i) as [g |]; [| done].
  destruct (hasModuleInGraph_chunks_spec st filterFn filterChunkFn
              (chunks (getChunkGroup st g)) processed Hdone) as [Hfound Hkeep].
  destruct (hasModuleInGraph_chunks _ _ _ _ _) as [processed' found].
  simpl in Hfound, Hkeep. unfold hasModuleInGraph_body at 1.
  rewrite <- Hfound. destruct found; [done |]. by apply IH, Hkeep.
Qed.

Lemma children_in_all_children children g :
  childrenIterable children g ⊆ all_children children.
Proof.
  intros x Hx. unfold childrenIterable in Hx.
  destruct (children !! g) as [l |] eqn:Hg; simpl in Hx.
  - unfold all_children. apply list_elem_of_bind. exists (g, l).
    split; [done | by apply elem_of_map_to_list].
  - by apply elem_of_nil in Hx.
Qed.

Lemma hasModuleInGraph_body_next st children filterFn filterChunkFn g ys :
  hasModuleInGraph_body st children filterFn filterChunkFn g = Next ys →
  ys = childrenIterable children g
  ∧ existsb (chunk_has_match st filterFn filterChunkFn)
            (chunks (getChunkGroup st g)) = false.
Proof.
  unfold hasModuleInGraph_body. destruct (existsb _ _); [done |].
  by intros [= <-].
Qed.

(** [hasModuleInGraph] always answers. *)
Lemma Chunk_hasModuleInGraph_total st children c filterFn filterChunkFn :
  is_Some (Chunk_hasModuleInGraph st children c filterFn filterChunkFn).
Proof.
  unfold Chunk_hasModuleInGraph.
  rewrite hasModuleInGraph_loop_eq
    by (intros x Hx; by apply elem_of_nil in Hx).
  destruct (for_of_queue_terminates
              (hasModuleInGraph_body st children filterFn filterChunkFn)
              (set_of (_groups (getChunk st c)) ++ all_children children)
              ltac:(intros x ys [-> _]%hasModuleInGraph_body_next y Hy;
                    apply elem_of_app; right;
                    by apply (children_in_all_children children x))
              (S (length (set_of (_groups (getChunk st c)))
                  + length (all_children children)))
              (set_of (_groups (getChunk st c))) 0) as [r Hr].
  - apply NoDup_set_of.
  - intros y Hy. apply elem_of_app. by left.
  - lia.
  - rewrite length_app. lia.
  - rewrite Hr. by eexists.
Qed.

(** X18.  [hasModuleInGraph(filterFn, filterChunkFn)] is true exactly when
    some group reachable along child links from a group that owns the chunk
    has a chunk that passes [filterChunkFn] (any chunk, when no filter is
    given) and holds a module that passes [filterFn]; otherwise it is
    false. *)
Theorem Chunk_hasModuleInGraph_iff st children c filterFn filterChunkFn :
  let found :=
    ∃ g0 g chunk m,
      g0 ∈ _groups (getChunk st c) ∧ rtc (child_of children) g0 g
      ∧ chunk ∈ chunks (getChunkGroup st g)
      ∧ chunk_passes filterChunkFn chunk = true
      ∧ m ∈ _modules (getChunk st chunk) ∧ filterFn m = true in
  (Chunk_hasModuleInGraph st children c filterFn filterChunkFn = Some true ↔ found)
  ∧ (Chunk_hasModuleInGraph st children c filterFn filterChunkFn = Some false
     ↔ ¬ found).
Proof.
  intros found.
  assert (Htrue : Chunk_hasModuleInGraph st children c filterFn filterChunkFn
                  = Some true ↔ found).
  { destruct (Chunk_hasModuleInGraph_total st children c filterFn filterChunkFn)
      as [r Hr].
    rewrite Hr. unfold Chunk_hasModuleInGraph in Hr.
    rewrite hasModuleInGraph_loop_eq in Hr
      by (intros x Hx; by apply elem_of_nil in Hx).
    destruct (for_of_queue _ _ _ _) as [[b |] |] eqn:Hloop; simpl in Hr;
      try done; injection Hr as <-.
    - apply (for_of_queue_returned _
               (λ x, ∃ g0, g0 ∈ _groups (getChunk st c)
                           ∧ rtc (child_of children) g0 x)) in Hloop.
      + destruct Hloop as (g & (g0 & Hg0 & Hreach) & Hbody).
        unfold hasModuleInGraph_body in Hbody.
        destruct (existsb _ _) eqn:Hex; [| done]. injection Hbody as <-.
        split; [intros _ | done].
        apply existsb_exists in Hex as (chunk & Hchunk & Hmatch).
        apply andb_true_iff in Hmatch as [Hpass Hmod].
        apply existsb_exists in Hmod as (m & Hm & Hf).
        rewrite <- list_elem_of_In in Hchunk, Hm.
        exists g0, g, chunk, m. by split_and!.
      + intros x y (g0 & Hg0 & Hreach) (ys & [-> _]%hasModuleInGraph_body_next & Hy).
        exists g0. split; [done |]. eapply rtc_r; [done | done].
      + intros x Hx. rewrite elem_of_set_of in Hx. by exists x.
    - split; [done |]. intros (g0 & g & chunk & m & Hg0 & Hreach & Hchunk
                                  & Hpass & Hm & Hf). exfalso.
      apply for_of_queue_completed in Hloop as (final & Hsub & Hclosed);
        [| intros j x Hj; lia].
      assert (Hin : g0 ∈ final) by (apply Hsub; by rewrite elem_of_set_of).
      clear Hg0 Hsub.
      induction Hreach as [g | g0 g1 g Hstep Hreach IH].
      + destruct (Hclosed g Hin) as (ys & [_ Hnone]%hasModuleInGraph_body_next & _).
        assert (existsb (chunk_has_match st filterFn filterChunkFn)
                        (chunks (getChunkGroup st g)) = true) as Hsome; [| congruence].
        apply existsb_exists. exists chunk. split; [by apply list_elem_of_In |].
        apply andb_true_iff. split; [done |].
        apply existsb_exists. exists m. split; [by apply list_elem_of_In | done].
      + destruct (Hclosed g0 Hin) as (ys & [-> _]%hasModuleInGraph_body_next & Hall).
        by apply IH, Hall. }
  split; [done |]. rewrite <- Htrue.
  destruct (Chunk_hasModuleInGraph_total st children c filterFn filterChunkFn)
    as [[|] ->]; split; done.
Qed.

(** ** When [isUsed] renames, and what merging a subset costs *)

Lemma includes_elem_of x l : includes x l = true ↔ x ∈ l.
Proof.
  unfold includes. rewrite existsb_exists. split.
  - intros (y & Hy & ->%String.eqb_eq). by apply list_elem_of_In.
  - intros Hx. exists x. split; [by apply list_elem_of_In | apply String.eqb_refl].
Qed.

(** X19.  [isUsed] renames an export only when it knows the export to be
    provided: if it answers with an identifier, then [buildMeta] is defined,
    [providedExports] is an array that lists the export, and [exportsType]
    is "namespace", or "named" with no "default" among [usedExports]. *)
Theorem Module_isUsed_renames_only_provided this e i :
  Module_isUsed this (Some e) = Normal (ResultIdentifier i) →
  ∃ meta provided names,
    buildMeta this = Some meta
    ∧ providedExports meta = Some provided ∧ e ∈ provided
    ∧ usedExports this = ExportsArray names
    ∧ (exportsType meta = Some "namespace"%string
       ∨ (exportsType meta = Some "named"%string ∧ "default"%string ∉ names)).
Proof.
  unfold Module_isUsed, Module_isProvided. destruct e as [| ch e]; [done |].
  destruct (used this) as [| [|]]; try done;
    destruct (usedExports this) as [| [|] | names]; try done.
  destruct (indexOf (String ch e) names <? 0)%Z; [done |].
  destruct (buildMeta this) as [meta |]; [| done].
  destruct (providedExports meta) as [provided |] eqn:Hp; [| done].
  destruct (includes (String ch e) provided) eqn:Hprov; [| done].
  apply includes_elem_of in Hprov. simpl.
  intros Hrun. exists meta, provided, names. split_and!; try done.
  destruct (bool_decide (exportsType meta = Some "namespace"%string)) eqn:Hns.
  - left. by apply bool_decide_eq_true in Hns.
  - destruct (bool_decide (exportsType meta = Some "named"%string)) eqn:Hnamed;
      simpl in Hrun; [| done].
    destruct (includes "default" names) eqn:Hdef; simpl in Hrun; [done |].
    right. split; [by apply bool_decide_eq_true in Hnamed |].
    intros Hin%includes_elem_of. congruence.
Qed.

Lemma Module_isUsed_renames_only_provided_witness :
  ∃ meta provided names,
    buildMeta module_namespace = Some meta
    ∧ providedExports meta = Some provided ∧ "b"%string ∈ provided
    ∧ usedExports module_namespace = ExportsArray names
    ∧ (exportsType meta = Some "namespace"%string
       ∨ (exportsType meta = Some "named"%string ∧ "default"%string ∉ names)).
Proof.
  apply (Module_isUsed_renames_only_provided module_namespace "b" 0).
  reflexivity.
Defined.

(** X20.  Merging in a chunk whose modules this chunk already has costs
    nothing: when every module of [b] is a module of [a] and
    [a.canBeIntegrated(b)] holds, [a.integratedSize(b, options)] is
    [a.size(options)]. *)
Theorem Chunk_integratedSize_of_subset st a b options :
  Chunk_canBeIntegrated st a b = Some true →
  (∀ m, Chunk_containsModule st b m = true → Chunk_containsModule st a m = true) →
  Chunk_integratedSize st a b options = Some (SizeNumber (Chunk_size st a options)).
Proof.
  intros Hok Hsub. unfold Chunk_integratedSize, Chunk_size. rewrite Hok. simpl.
  do 3 f_equal. unfold Chunk_containsModule in Hsub.
  generalize (Chunk_modulesSize st a).
  induction (_modules (getChunk st b)) as [| m ms IH]; intros acc; simpl; [done |].
  rewrite (Hsub m) by (apply set_has_true; left). simpl.
  apply IH. intros x Hx%set_has_true. apply Hsub, set_has_true. by right.
Qed.

Lemma Chunk_integratedSize_of_subset_witness :
  Chunk_integratedSize graph_scenario 2 2 (mkOptions None None)
  = Some (SizeNumber (Chunk_size graph_scenario 2 (mkOptions None None))).
Proof.
  apply Chunk_integratedSize_of_subset; [vm_compute; reflexivity | done].
Defined.

(** ** Evaluations on [graph_scenario] *)

Lemma remove_edge_keeps_symmetry_witness :
  ∃ st', Chunk_removeModule graph_scenario 2 11 = Some (st', true)
    ∧ edge_symmetric st'.
Proof.
  eexists. split; [vm_compute; reflexivity |].
  eapply (proj1 (remove_edge_keeps_symmetry graph_scenario 2 11
                   graph_scenario_symmetric)).
  vm_compute; reflexivity.
Defined.

Lemma removeModule_removeChunk_agree_witness :
  Chunk_removeModule graph_scenario 2 11 = Module_removeChunk graph_scenario 11 2
  ∧ ∃ st', Chunk_removeModule graph_scenario 2 11
           = Some (st', Chunk_containsModule graph_scenario 2 11).
Proof.
  apply (removeModule_removeChunk_agree graph_scenario 2 11).
  apply graph_scenario_symmetric.
Defined.

Lemma Chunk_removeModule_twice_witness :
  ∃ st', Chunk_removeModule graph_scenario 2 11 = Some (st', true)
    ∧ Chunk_containsModule st' 2 11 = false
    ∧ Chunk_removeModule st' 2 11 = Some (st', false).
Proof.
  eexists. split; [vm_compute; reflexivity |].
  eapply (Chunk_removeModule_twice graph_scenario 2 11).
  vm_compute; reflexivity.
Defined.

Lemma Chunk_remove_keeps_symmetry_witness :
  ∃ st', Chunk_remove graph_scenario 2 = Some st'
    ∧ edge_symmetric st'
    ∧ _modules (getChunk st' 2) = []
    ∧ (∀ m, Module_isInChunk st' m 2 = false).
Proof.
  apply (Chunk_remove_keeps_symmetry graph_scenario 2).
  apply graph_scenario_symmetric.
Defined.
